(** * Byte Wrangler: the canvas mini-game of [pages/index.tsx]

    A shallow embedding of [startGame], its [gameLoop] closure, the
    countdown callback and the three mouse handlers, followed by the
    properties of the game's specification.

    Numbers.  A JavaScript [number] is modelled as an exact rational
    ([Q]): sums, differences, products and quotients are not rounded,
    and NaN and the infinities are left out.  [Math.sqrt] is the one
    operation that leaves the rationals: it is modelled as the root
    rounded to the nearest number with a significand of 53 bits, ties to
    even, as IEEE 754 has it ([Math_sqrt]), so that every definition
    below computes.  Counters and clock readings are integers ([Z]).

    Effects.  The closure variables of [startGame], the React state the
    game reads or writes and the state of the countdown's interval are
    gathered in the record [State]; [Math.random()] and [Date.now()] are
    inputs of the step that calls them, in the order of the calls;
    logging is left out, and of the drawing only the three circles. *)

From Stdlib Require Import ZArith QArith Qminmax Qabs Qround Lqa Lia Bool.
From stdpp Require Import base option list.

Local Open Scope Q_scope.

(** ** JavaScript numbers *)

Definition Qltb (a b : Q) : bool := negb (Qle_bool b a).

Notation "a <=? b" := (Qle_bool a b) : Q_scope.
Notation "a <? b" := (Qltb a b) : Q_scope.
Notation "a >=? b" := (Qle_bool b a) (at level 70) : Q_scope.
Notation "a >? b" := (Qltb b a) (at level 70) : Q_scope.

(** [floor (log2 q)] for a positive [q]. *)
Definition Qlog2 (q : Q) : Z :=
  let l := (Z.log2 (Qnum q) - Z.log2 (Zpos (Qden q)))%Z in
  if 2 ^ l <=? q then l else (l - 1)%Z.

(** The integer nearest to the square root of [x], the even one of the
    two on a tie. *)
Definition roundSqrt (x : Q) : Z :=
  let n := Z.sqrt (Qfloor x) in
  let middle := inject_Z (n * n + n) + 1 / 4 in
  if x <? middle then n
  else if middle <? x then (n + 1)%Z
  else if Z.even n then n else (n + 1)%Z.

(** [Math.sqrt]: the root rounded to nearest with 53 significant bits.
    With [2^e <= sqrt q < 2^(e+1)] the result is a multiple of
    [2^(e-52)].  The game only takes roots of sums of squares; the root
    of [0] is [0]. *)
Definition Math_sqrt (q : Q) : Q :=
  if q <=? 0 then 0
  else
    let e := (Qlog2 q / 2)%Z in
    Qred (inject_Z (roundSqrt (q * 2 ^ (2 * (52 - e)))) * 2 ^ (e - 52)).

(** The color strings [`hsl(${h}, 70%, 60%)`] and [`hsl(${h}, 50%, 50%)`]. *)
Record Color := hsl { hue : Q; saturation : Q; lightness : Q }.

(** ** Entities *)

Module Byte.
Record t := mk {
  x : Q; y : Q; vx : Q; vy : Q; size : Q; color : Color;
  caught : bool; grabbed : bool; targetX : Q; targetY : Q }.

Definition with_x (v : Q) (b : t) : t :=
  mk v (y b) (vx b) (vy b) (size b) (color b) (caught b) (grabbed b) (targetX b) (targetY b).
Definition with_y (v : Q) (b : t) : t :=
  mk (x b) v (vx b) (vy b) (size b) (color b) (caught b) (grabbed b) (targetX b) (targetY b).
Definition with_vx (v : Q) (b : t) : t :=
  mk (x b) (y b) v (vy b) (size b) (color b) (caught b) (grabbed b) (targetX b) (targetY b).
Definition with_vy (v : Q) (b : t) : t :=
  mk (x b) (y b) (vx b) v (size b) (color b) (caught b) (grabbed b) (targetX b) (targetY b).
Definition with_color (v : Color) (b : t) : t :=
  mk (x b) (y b) (vx b) (vy b) (size b) v (caught b) (grabbed b) (targetX b) (targetY b).
Definition with_caught (v : bool) (b : t) : t :=
  mk (x b) (y b) (vx b) (vy b) (size b) (color b) v (grabbed b) (targetX b) (targetY b).
Definition with_grabbed (v : bool) (b : t) : t :=
  mk (x b) (y b) (vx b) (vy b) (size b) (color b) (caught b) v (targetX b) (targetY b).
Definition with_target (tx ty : Q) (b : t) : t :=
  mk (x b) (y b) (vx b) (vy b) (size b) (color b) (caught b) (grabbed b) tx ty.
End Byte.

Module Ghost.
Record t := mk {
  x : Q; y : Q; vx : Q; vy : Q; size : Q; color : Color; phase : Q }.
End Ghost.

Module Controller.
Record t := mk { x : Q; y : Q; size : Q }.
End Controller.

Module Container.
Record t := mk { x : Q; y : Q; width : Q; height : Q }.
End Container.

(** The [<canvas width={600} height={400}>] element. *)
Definition canvas_width : Q := 600.
Definition canvas_height : Q := 400.

Definition container : Container.t := Container.mk 250 200 200 100.
Definition totalBytes : Z := 20.
Definition totalGhosts : Z := 3.

Inductive GameResult := playing | success | failed.

#[global] Instance GameResult_eq_dec : EqDecision GameResult.
Proof. solve_decision. Defined.

(** The interval of the countdown, as the session sees it through
    [gameIntervalRef.current].  [startGame] calls [gameLoop] once before
    it calls [setInterval]: during that call the reference does not yet
    hold the interval of this session ([unset]), and the [clearInterval]
    of a terminal branch cannot stop it. *)
Inductive Timer := unset | running | cleared.

#[global] Instance Timer_eq_dec : EqDecision Timer.
Proof. solve_decision. Defined.

(** The variables that [startGame] closes over, with the React state
    [gameResult], [timeLeft] and [bytesWrangled] and the interval of the
    countdown. *)
Record State := mkState {
  bytes : list Byte.t;
  ghosts : list Ghost.t;
  controller : Controller.t;
  caughtBytes : Z;
  eatenBytes : Z;
  isDraggingLocal : bool;
  lastByteSpawn : Z;
  gameResult : GameResult;
  timeLeft : Z;
  bytesWrangled : Z;
  gameInterval : Timer }.

(** ** The page around the game *)

(** The React state that the game shares with the page. *)
Record React := mkReact {
  react_gameResult : GameResult;
  react_timeLeft : Z;
  react_bytesWrangled : Z }.

(** The values of the three [useState] calls. *)
Definition initialReact : React := mkReact playing 15 0.

(** [handleRedeployContainer] in bored mode: [setShowGame(true);
    setGameResult('playing'); setTimeLeft(15)].  The score is left as it
    is. *)
Definition handleRedeployContainer (r : React) : React :=
  mkReact playing 15 (react_bytesWrangled r).

(** [restartGame]: [setGameResult('playing'); setBytesWrangled(0);
    setTimeLeft(15)], then [setShowGame(true)] from a timeout. *)
Definition restartGame (r : React) : React := mkReact playing 15 0.

(** These two are the only places that show the game, and the effect
    that calls [startGame] waits for [showGame]. *)
Inductive opened : React → Prop :=
  | opened_redeploy r : opened (handleRedeployContainer r)
  | opened_restart r : opened (restartGame r).

(** ** Session start *)

(** The [Math.random()] draws of one [bytes.push], in source order. *)
Record ByteSeed := mkByteSeed {
  seed_x : Q; seed_y : Q; seed_vx : Q; seed_vy : Q; seed_size : Q; seed_hue : Q }.

(** The draws of one [ghosts.push].  The last one is the phase
    [Math.random() * Math.PI * 2] itself: it only feeds the glow. *)
Record GhostSeed := mkGhostSeed {
  gseed_x : Q; gseed_y : Q; gseed_vx : Q; gseed_vy : Q; gseed_size : Q;
  gseed_hue : Q; gseed_phase : Q }.

Definition newByte (r : ByteSeed) : Byte.t :=
  Byte.mk (seed_x r * (canvas_width - 20))
          (seed_y r * (canvas_height - 20))
          ((seed_vx r - 0.5) * 4)
          ((seed_vy r - 0.5) * 4)
          (8 + seed_size r * 4)
          (hsl (seed_hue r * 360) 70 60)
          false false 0 0.

Definition newGhost (r : GhostSeed) : Ghost.t :=
  Ghost.mk (gseed_x r * canvas_width)
           (gseed_y r * canvas_height)
           ((gseed_vx r - 0.5) * 1.5)
           ((gseed_vy r - 0.5) * 1.5)
           (15 + gseed_size r * 5)
           (hsl (200 + gseed_hue r * 40) 50 50)
           (gseed_phase r).

(** [startGame] up to the first call of [gameLoop]: the two [for] loops
    push [totalBytes] bytes and [totalGhosts] ghosts; [rb i] and [rg i]
    are the draws of iteration [i].  The React state is not touched: the
    game starts with what the page holds. *)
Definition startGame (r : React) (rb : nat → ByteSeed) (rg : nat → GhostSeed) : State :=
  {| bytes := (λ i, newByte (rb i)) <$> seq 0 (Z.to_nat totalBytes);
     ghosts := (λ i, newGhost (rg i)) <$> seq 0 (Z.to_nat totalGhosts);
     controller := Controller.mk (canvas_width / 2) (canvas_height / 2) 20;
     caughtBytes := 0;
     eatenBytes := 0;
     isDraggingLocal := false;
     lastByteSpawn := 0;
     gameResult := react_gameResult r;
     timeLeft := react_timeLeft r;
     bytesWrangled := react_bytesWrangled r;
     gameInterval := unset |}.

(** ** One frame: [gameLoop] *)

(** The five draws of one respawn, in source order. *)
Record Draws := mkDraws {
  draw_x : Q; draw_y : Q; draw_vx : Q; draw_vy : Q; draw_hue : Q }.

(** The assignments to [caughtByte] in the respawn branch. *)
Definition respawn (r : Draws) (caughtByte : Byte.t) : Byte.t :=
  Byte.mk (draw_x r * (canvas_width - 20))
          (draw_y r * (canvas_height - 20))
          ((draw_vx r - 0.5) * 4)
          ((draw_vy r - 0.5) * 4)
          (Byte.size caughtByte)
          (hsl (draw_hue r * 360) 70 60)
          false false
          (Byte.targetX caughtByte) (Byte.targetY caughtByte).

(** [bytes.find(byte => byte.caught)] and the update of the element it
    returns: the array holds the object, so the update is in place. *)
Definition spawnBytes (r : Draws) (bs : list Byte.t) : list Byte.t :=
  match list_find (λ byte, Byte.caught byte = true) bs with
  | Some (i, _) => alter (respawn r) i bs
  | None => bs
  end.

Definition ghostSpeedMultiplier (caughtBytes : Z) : Q :=
  if (caughtBytes >=? 10)%Z then 2.0 else 1.0.

(** "Bounce off walls", one axis: the position after the move, the
    velocity, and the largest admissible position. *)
Definition bounce (limit pos vel : Q) : Q * Q :=
  if (pos <=? 0) || (pos >=? limit)
  then (Qmax 0 (Qmin limit pos), vel * -1)
  else (pos, vel).

Definition moveGhost (m : Q) (ghost : Ghost.t) : Ghost.t :=
  let x1 := Ghost.x ghost + Ghost.vx ghost * m in
  let y1 := Ghost.y ghost + Ghost.vy ghost * m in
  let '(x2, vx2) := bounce (canvas_width - Ghost.size ghost) x1 (Ghost.vx ghost) in
  let '(y2, vy2) := bounce (canvas_height - Ghost.size ghost) y1 (Ghost.vy ghost) in
  Ghost.mk x2 y2 vx2 vy2 (Ghost.size ghost) (Ghost.color ghost) (Ghost.phase ghost + 0.1).

Definition moveByte (byte : Byte.t) : Byte.t :=
  let x1 := Byte.x byte + Byte.vx byte in
  let y1 := Byte.y byte + Byte.vy byte in
  let '(x2, vx2) := bounce (canvas_width - Byte.size byte) x1 (Byte.vx byte) in
  let '(y2, vy2) := bounce (canvas_height - Byte.size byte) y1 (Byte.vy byte) in
  Byte.with_vy vy2 (Byte.with_vx vx2 (Byte.with_y y2 (Byte.with_x x2 byte))).

(** [Math.sqrt((x1 - x2) ** 2 + (y1 - y2) ** 2)] *)
Definition distance (x1 y1 x2 y2 : Q) : Q :=
  Math_sqrt ((x1 - x2) ^ 2 + (y1 - y2) ^ 2).

(** "Check if grabbed by controller" *)
Definition grabByte (c : Controller.t) (dragging : bool) (byte : Byte.t) : Byte.t :=
  if (distance (Byte.x byte) (Byte.y byte) (Controller.x c) (Controller.y c)
        <? Controller.size c + Byte.size byte) && dragging
  then Byte.with_target (Controller.x c) (Controller.y c) (Byte.with_grabbed true byte)
  else byte.

(** The test of "Check if eaten by ghost" for one ghost. *)
Definition ghostHits (ghost : Ghost.t) (byte : Byte.t) : bool :=
  distance (Byte.x byte) (Byte.y byte) (Ghost.x ghost) (Ghost.y ghost)
    <? Ghost.size ghost + Byte.size byte.

(** The inner [ghosts.forEach]: every ghost in range sets [caught] and
    increments [eatenBytes]. *)
Fixpoint eatByte (gs : list Ghost.t) (byte : Byte.t) (eaten : Z) : Byte.t * Z :=
  match gs with
  | [] => (byte, eaten)
  | ghost :: rest =>
      if ghostHits ghost byte
      then eatByte rest (Byte.with_caught true byte) (eaten + 1)%Z
      else eatByte rest byte eaten
  end.

(** "If grabbed, follow controller slowly" *)
Definition followByte (c : Controller.t) (byte : Byte.t) : Byte.t :=
  let dx := Controller.x c - Byte.x byte in
  let dy := Controller.y c - Byte.y byte in
  let dist := Math_sqrt (dx * dx + dy * dy) in
  if dist >? 5
  then Byte.with_y (Byte.y byte + (dy / dist) * 3)
         (Byte.with_x (Byte.x byte + (dx / dist) * 3) byte)
  else byte.

(** The test of "Check if in container" *)
Definition inContainer (byte : Byte.t) : bool :=
  (Byte.x byte >=? Container.x container)
  && (Byte.x byte <=? Container.x container + Container.width container)
  && (Byte.y byte >=? Container.y container)
  && (Byte.y byte <=? Container.y container + Container.height container).

(** "Check if in container": the branch sets the two flags, increments
    [caughtBytes] and calls [setBytesWrangled(caughtBytes)]. *)
Definition checkContainer (byte : Byte.t) (secured wrangled : Z) : Byte.t * (Z * Z) :=
  if inContainer byte
  then (Byte.with_grabbed false (Byte.with_caught true byte),
        ((secured + 1)%Z, (secured + 1)%Z))
  else (byte, (secured, wrangled)).

(** What the frame threads through [bytes.forEach]: the closure
    variables [eatenBytes] and [caughtBytes] and the React state
    [bytesWrangled]. *)
Definition Counters : Type := Z * Z * Z.

(** The body of [bytes.forEach] without the drawing. *)
Definition updateByte (c : Controller.t) (dragging : bool) (gs : list Ghost.t)
    (byte : Byte.t) (counters : Counters) : Byte.t * Counters :=
  let '(eaten, secured, wrangled) := counters in
  let '(byte1, eaten1) :=
    if negb (Byte.caught byte) && negb (Byte.grabbed byte)
    then eatByte gs (grabByte c dragging (moveByte byte)) eaten
    else (byte, eaten) in
  let '(byte2, (secured1, wrangled1)) :=
    if Byte.grabbed byte1 && negb (Byte.caught byte1)
    then checkContainer (followByte c byte1) secured wrangled
    else (byte1, (secured, wrangled)) in
  (byte2, (eaten1, secured1, wrangled1)).

(** [bytes.forEach]: elements are visited in index order. *)
Fixpoint forEachByte (f : Byte.t → Counters → Byte.t * Counters)
    (bs : list Byte.t) (counters : Counters) : list Byte.t * Counters :=
  match bs with
  | [] => ([], counters)
  | byte :: rest =>
      let '(byte', counters1) := f byte counters in
      let '(rest', counters2) := forEachByte f rest counters1 in
      (byte' :: rest', counters2)
  end.

(** ** What the frame draws *)

(** The circles of [ctx.arc(x, y, radius, 0, Math.PI * 2)]: a byte and a
    ghost are drawn in the box of side [size] whose corner is the stored
    position, the controller around its stored position. *)
Record Circle := mkCircle { centerX : Q; centerY : Q; radius : Q }.

Definition byteArc (byte : Byte.t) : Circle :=
  mkCircle (Byte.x byte + Byte.size byte / 2) (Byte.y byte + Byte.size byte / 2)
           (Byte.size byte / 2).
Definition ghostArc (ghost : Ghost.t) : Circle :=
  mkCircle (Ghost.x ghost + Ghost.size ghost / 2) (Ghost.y ghost + Ghost.size ghost / 2)
           (Ghost.size ghost / 2).
Definition controllerArc (c : Controller.t) : Circle :=
  mkCircle (Controller.x c) (Controller.y c) (Controller.size c).

(** "Check win/lose conditions" *)
Definition checkResult (caughtBytes eatenBytes : Z) : GameResult :=
  if (caughtBytes >=? totalBytes)%Z then success
  else if (eatenBytes >=? totalBytes)%Z then failed
  else playing.

(** The inputs of one frame: [Date.now()] and the draws of the respawn
    branch (read only when a caught byte is found). *)
Record Frame := mkFrame { currentTime : Z; draws : Draws }.

(** "Spawn new bytes every 1 second" *)
Definition spawnDue (f : Frame) (s : State) : bool :=
  (currentTime f - lastByteSpawn s >? 1000)%Z.

Definition spawnPhase (f : Frame) (s : State) : State :=
  if spawnDue f s
  then mkState (spawnBytes (draws f) (bytes s)) (ghosts s) (controller s)
         (caughtBytes s) (eatenBytes s) (isDraggingLocal s) (currentTime f)
         (gameResult s) (timeLeft s) (bytesWrangled s) (gameInterval s)
  else s.

(** "Dynamic ghost speed based on progress" and "Update and draw ghosts" *)
Definition ghostPhase (s : State) : State :=
  mkState (bytes s)
    (moveGhost (ghostSpeedMultiplier (caughtBytes s)) <$> ghosts s)
    (controller s) (caughtBytes s) (eatenBytes s) (isDraggingLocal s)
    (lastByteSpawn s) (gameResult s) (timeLeft s) (bytesWrangled s) (gameInterval s).

(** "Update and draw bytes" *)
Definition bytePhase (s : State) : State :=
  let '(bytes1, (eaten1, caught1, wrangled1)) :=
    forEachByte (updateByte (controller s) (isDraggingLocal s) (ghosts s))
                (bytes s) (eatenBytes s, caughtBytes s, bytesWrangled s) in
  mkState bytes1 (ghosts s) (controller s) caught1 eaten1 (isDraggingLocal s)
    (lastByteSpawn s) (gameResult s) (timeLeft s) wrangled1 (gameInterval s).

(** The interval after a call of [gameLoop] that ends with the result
    [r].  The first call is the one [startGame] makes, and [setInterval]
    follows it whatever its result; in a later call a terminal branch
    clears the interval. *)
Definition intervalAfter (r : GameResult) (i : Timer) : Timer :=
  match i with
  | unset => running
  | running => match r with playing => running | _ => cleared end
  | cleared => cleared
  end.

Definition resultPhase (s : State) : State :=
  let r := checkResult (caughtBytes s) (eatenBytes s) in
  mkState (bytes s) (ghosts s) (controller s) (caughtBytes s) (eatenBytes s)
    (isDraggingLocal s) (lastByteSpawn s)
    r (timeLeft s) (bytesWrangled s) (intervalAfter r (gameInterval s)).

(** One call of [gameLoop].  The guard at its top reads React state
    captured when [startGame] ran; what stops the loop is that the
    terminal branches return without [requestAnimationFrame] and that the
    countdown cancels the pending frame.  Both are rendered by running a
    frame only while [gameResult] is [playing]. *)
Definition gameLoop (f : Frame) (s : State) : State :=
  match gameResult s with
  | playing => resultPhase (bytePhase (ghostPhase (spawnPhase f s)))
  | _ => s
  end.

(** ** The countdown and the mouse *)

(** The [setInterval] callback.  It does not look at [gameResult]: it
    runs until the interval is cleared, by itself when the time is up or
    by a terminal branch of a call of [gameLoop] after the first.  (An
    interval that is still [unset] counts as live: see [Event] for the
    order of events.) *)
Definition countdown (s : State) : State :=
  match gameInterval s with
  | cleared => s
  | _ =>
      if (timeLeft s <=? 1)%Z
      then mkState (bytes s) (ghosts s) (controller s) (caughtBytes s) (eatenBytes s)
             (isDraggingLocal s) (lastByteSpawn s) failed 0 (bytesWrangled s) cleared
      else mkState (bytes s) (ghosts s) (controller s) (caughtBytes s) (eatenBytes s)
             (isDraggingLocal s) (lastByteSpawn s) (gameResult s) (timeLeft s - 1)%Z
             (bytesWrangled s) (gameInterval s)
  end.

(** [handleMouseMove] with [e.clientX - rect.left] and
    [e.clientY - rect.top] already computed. *)
Definition handleMouseMove (mx my : Q) (s : State) : State :=
  mkState (bytes s) (ghosts s)
    (Controller.mk mx my (Controller.size (controller s)))
    (caughtBytes s) (eatenBytes s) (isDraggingLocal s) (lastByteSpawn s)
    (gameResult s) (timeLeft s) (bytesWrangled s) (gameInterval s).

Definition setDragging (v : bool) (s : State) : State :=
  mkState (bytes s) (ghosts s) (controller s) (caughtBytes s) (eatenBytes s)
    v (lastByteSpawn s) (gameResult s) (timeLeft s) (bytesWrangled s) (gameInterval s).

Definition handleMouseDown : State → State := setDragging true.
Definition handleMouseUp : State → State := setDragging false.

(** What the browser can deliver to a session.  The order of events is
    left open: the first [AnimationFrame] stands for the call of
    [gameLoop] that [startGame] makes itself, and the model also admits
    runs in which other events come before it. *)
Inductive Event :=
  | AnimationFrame (f : Frame)
  | Interval
  | MouseMove (mx my : Q)
  | MouseDown
  | MouseUp.

(** The listeners are removed on every terminal branch. *)
Definition step (s : State) (e : Event) : State :=
  match e with
  | AnimationFrame f => gameLoop f s
  | Interval => countdown s
  | MouseMove mx my => if decide (gameResult s = playing) then handleMouseMove mx my s else s
  | MouseDown => if decide (gameResult s = playing) then handleMouseDown s else s
  | MouseUp => if decide (gameResult s = playing) then handleMouseUp s else s
  end.

Definition run (s : State) (es : list Event) : State := fold_left step es s.

(** * Vocabulary of the properties *)

Fixpoint sumZ (l : list Z) : Z :=
  match l with
  | [] => 0%Z
  | z :: rest => (z + sumZ rest)%Z
  end.

(** The outcome of [updateByte] for one byte, apart from the counters
    it was run with. *)
Definition byteAfter (c : Controller.t) (d : bool) (gs : list Ghost.t) (b : Byte.t) : Byte.t :=
  (updateByte c d gs b (0, 0, 0)%Z).1.
Definition eatenBy (c : Controller.t) (d : bool) (gs : list Ghost.t) (b : Byte.t) : Z :=
  (updateByte c d gs b (0, 0, 0)%Z).2.1.1.
Definition securedBy (c : Controller.t) (d : bool) (gs : list Ghost.t) (b : Byte.t) : Z :=
  (updateByte c d gs b (0, 0, 0)%Z).2.1.2.

(** What the container check does to a byte and to the deposit counter. *)
Definition depositByte (byte : Byte.t) (secured : Z) : Byte.t * Z :=
  ((checkContainer byte secured 0).1, (checkContainer byte secured 0).2.1).

(** The number of ghosts in range of a byte. *)
Fixpoint hitCount (gs : list Ghost.t) (b : Byte.t) : Z :=
  match gs with
  | [] => 0%Z
  | g :: rest => ((if ghostHits g b then 1 else 0) + hitCount rest b)%Z
  end.

Definition anyHit (gs : list Ghost.t) (b : Byte.t) : bool :=
  existsb (λ g, ghostHits g b) gs.

(** The state in which [bytes.forEach] starts. *)
Definition beforeBytes (f : Frame) (s : State) : State :=
  ghostPhase (spawnPhase f s).

(** ** The states a byte can be in *)

Definition isFree (b : Byte.t) : bool := negb (Byte.caught b) && negb (Byte.grabbed b).
Definition isHeld (b : Byte.t) : bool := Byte.grabbed b && negb (Byte.caught b).
Definition isCaptured (b : Byte.t) : bool := Byte.caught b.

(** The game has one flag, [caught], for both ways of leaving play.  Which
    of the two events set it is kept here in a ledger beside the state:
    one entry per byte, written where the frame logs "Byte secured!" or
    "Byte eaten by ghost!" and cleared where it logs "Byte respawned!". *)
Inductive Cause := byDeposit | byGhost.

Definition causeAfter (c : Controller.t) (d : bool) (gs : list Ghost.t)
    (b : Byte.t) (old : option Cause) : option Cause :=
  if (0 <? eatenBy c d gs b)%Z then Some byGhost
  else if (0 <? securedBy c d gs b)%Z then Some byDeposit
  else old.

Definition spawnLedger (bs : list Byte.t) (L : list (option Cause)) : list (option Cause) :=
  match list_find (λ byte, Byte.caught byte = true) bs with
  | Some (i, _) => alter (λ _, None) i L
  | None => L
  end.

Definition record (s : State) (e : Event) (L : list (option Cause)) : list (option Cause) :=
  match e with
  | AnimationFrame f =>
      match gameResult s with
      | playing =>
          let L1 := if spawnDue f s then spawnLedger (bytes s) L else L in
          let s1 := beforeBytes f s in
          zip_with (causeAfter (controller s1) (isDraggingLocal s1) (ghosts s1))
                   (bytes s1) L1
      | _ => L
      end
  | _ => L
  end.

Definition depositCaptured (b : Byte.t) (l : option Cause) : bool :=
  Byte.caught b && match l with Some byDeposit => true | _ => false end.
Definition consumptionCaptured (b : Byte.t) (l : option Cause) : bool :=
  Byte.caught b && match l with Some byGhost => true | _ => false end.

(** Exactly one of the listed conditions holds. *)
Definition oneOf (conditions : list bool) : Prop :=
  sumZ (Z.b2z <$> conditions) = 1%Z.

(** The number of bytes in a given state. *)
Definition census (p : Byte.t → option Cause → bool)
    (bs : list Byte.t) (L : list (option Cause)) : Z :=
  sumZ (zip_with (λ b l, Z.b2z (p b l)) bs L).

(** The four ways an update can end for a byte that was not caught. *)
Inductive Outcome (c : Controller.t) (d : bool) (gs : list Ghost.t) (b : Byte.t) : Prop :=
  | outcome_eaten :
      Byte.caught (byteAfter c d gs b) = true →
      (0 < eatenBy c d gs b)%Z → securedBy c d gs b = 0%Z →
      isFree b = true →
      Outcome c d gs b
  | outcome_secured :
      Byte.caught (byteAfter c d gs b) = true →
      Byte.grabbed (byteAfter c d gs b) = false →
      eatenBy c d gs b = 0%Z → securedBy c d gs b = 1%Z →
      Outcome c d gs b
  | outcome_held :
      Byte.caught (byteAfter c d gs b) = false →
      Byte.grabbed (byteAfter c d gs b) = true →
      eatenBy c d gs b = 0%Z → securedBy c d gs b = 0%Z →
      Outcome c d gs b
  | outcome_free :
      byteAfter c d gs b = moveByte b →
      isFree b = true →
      eatenBy c d gs b = 0%Z → securedBy c d gs b = 0%Z →
      Outcome c d gs b.

(** ** Sessions *)

(** [Math.random()] returns a number in [0, 1). *)
Definition isDraw (r : Q) : bool := (0 <=? r) && (r <? 1).

Definition validByteSeed (r : ByteSeed) : bool :=
  isDraw (seed_x r) && isDraw (seed_y r) && isDraw (seed_vx r) && isDraw (seed_vy r)
  && isDraw (seed_size r) && isDraw (seed_hue r).

Definition validGhostSeed (r : GhostSeed) : bool :=
  isDraw (gseed_x r) && isDraw (gseed_y r) && isDraw (gseed_vx r) && isDraw (gseed_vy r)
  && isDraw (gseed_size r) && isDraw (gseed_hue r).

Definition validDraws (r : Draws) : bool :=
  isDraw (draw_x r) && isDraw (draw_y r) && isDraw (draw_vx r) && isDraw (draw_vy r)
  && isDraw (draw_hue r).

Definition validEvent (e : Event) : bool :=
  match e with
  | AnimationFrame f => validDraws (draws f)
  | _ => true
  end.

Definition noCause : list (option Cause) := replicate (Z.to_nat totalBytes) None.

(** The states a session can be in, each with its ledger. *)
Inductive reachable : State → list (option Cause) → Prop :=
  | reachable_start r rb rg :
      opened r →
      (∀ i, validByteSeed (rb i) = true) →
      (∀ i, validGhostSeed (rg i) = true) →
      reachable (startGame r rb rg) noCause
  | reachable_step s L e :
      reachable s L → validEvent e = true →
      reachable (step s e) (record s e L).

(** A run with its ledger. *)
Fixpoint trace (s : State) (L : list (option Cause)) (es : list Event)
    : State * list (option Cause) :=
  match es with
  | [] => (s, L)
  | e :: rest => trace (step s e) (record s e L) rest
  end.

(** The play area of a byte: [0, width - size] x [0, height - size]. *)
Definition inBounds (b : Byte.t) : Prop :=
  0 <= Byte.x b ∧ Byte.x b <= canvas_width - Byte.size b
  ∧ 0 <= Byte.y b ∧ Byte.y b <= canvas_height - Byte.size b.

(** A byte's size is drawn once, as [8 + Math.random() * 4]. *)
Definition sizeOk (b : Byte.t) : Prop := 8 <= Byte.size b ∧ Byte.size b < 12.

(** What holds of every state of a session. *)
Record Inv (s : State) (L : list (option Cause)) : Prop := mkInv {
  inv_count : length (bytes s) = Z.to_nat totalBytes;
  inv_ghosts : length (ghosts s) = Z.to_nat totalGhosts;
  inv_ledger : Forall2 (λ b l, Byte.caught b = true ↔ is_Some l) (bytes s) L;
  inv_size : Forall sizeOk (bytes s);
  inv_bounds : Forall (λ b, isFree b = true → inBounds b) (bytes s);
  inv_counters : (0 <= caughtBytes s ∧ 0 <= eatenBytes s)%Z;
  inv_playing :
    gameResult s = playing →
    (caughtBytes s < totalBytes ∧ eatenBytes s < totalBytes ∧ 1 <= timeLeft s <= 15)%Z }.

(** ** Scenarios *)

(** Seeds that put an entity at a given place.  A velocity draw of [0.5]
    gives speed [0], a draw of [0] the largest speed to the left; a size
    draw of [0] gives a byte of size [8] and a ghost of size [15]. *)
Definition byteAt (px py vxDraw : Q) : ByteSeed :=
  mkByteSeed (px / 580) (py / 380) vxDraw 0.5 0 0.
Definition ghostAt (px py vxDraw : Q) : GhostSeed :=
  mkGhostSeed (px / 600) (py / 400) vxDraw 0.5 0 0 0.
Definition drawsAt (px py : Q) : Draws :=
  mkDraws (px / 580) (py / 380) 0.5 0.5 0.

(** A reading of [Date.now()] for the first frame. *)
Definition t0 : Z := 1700000000000.

(** The React state of the first game of a page. *)
Definition firstGame : React := handleRedeployContainer initialReact.

(** The byte at index [i], and the byte there when [bytes.forEach] starts
    in the frame [f]. *)
Definition byteAtIndex (i : nat) (s : State) : option Byte.t := bytes s !! i.
Definition byteBefore (i : nat) (f : Frame) (s : State) : option Byte.t :=
  bytes (beforeBytes f s) !! i.

(** Scenario A: byte 0 starts on the three ghosts, the other bytes far
    from them; a second frame comes 1001 ms after the first. *)
Definition scenA_bytes (i : nat) : ByteSeed :=
  if (i =? 0)%nat then byteAt 100 100 0.5 else byteAt 500 300 0.5.
Definition scenA_ghosts (_ : nat) : GhostSeed := ghostAt 100 100 0.5.
Definition scenA_frame1 : Frame := mkFrame t0 (drawsAt 500 300).
Definition scenA_frame2 : Frame := mkFrame (t0 + 1001) (drawsAt 500 300).
Definition scenA_start : State := startGame firstGame scenA_bytes scenA_ghosts.

(** Scenario B: byte 0 is picked up at (100, 100) while ghost 0 drifts
    towards it and comes within range one frame later. *)
Definition scenB_bytes (i : nat) : ByteSeed :=
  if (i =? 0)%nat then byteAt 100 100 0.5 else byteAt 500 300 0.5.
Definition scenB_ghosts (i : nat) : GhostSeed :=
  if (i =? 0)%nat then ghostAt 124.5 100 0 else ghostAt 50 350 0.5.
Definition scenB_events : list Event :=
  [AnimationFrame (mkFrame t0 (drawsAt 500 300));
   MouseMove 100 100; MouseDown;
   AnimationFrame (mkFrame (t0 + 16) (drawsAt 500 300))].
Definition scenB_last : Frame := mkFrame (t0 + 32) (drawsAt 500 300).
Definition scenB_start : State := startGame firstGame scenB_bytes scenB_ghosts.

(** Scenario C: byte 0 is picked up just left of the container and
    pulled into it while ghost 0 comes within range. *)
Definition scenC_bytes (i : nat) : ByteSeed :=
  if (i =? 0)%nat then byteAt 247 250 0.5 else byteAt 500 100 0.5.
Definition scenC_ghosts (i : nat) : GhostSeed :=
  if (i =? 0)%nat then ghostAt 272 250 0 else ghostAt 50 350 0.5.
Definition scenC_events : list Event :=
  [AnimationFrame (mkFrame t0 (drawsAt 500 100));
   MouseMove 247 250; MouseDown;
   AnimationFrame (mkFrame (t0 + 16) (drawsAt 500 100));
   MouseMove 255 250].
Definition scenC_last : Frame := mkFrame (t0 + 32) (drawsAt 500 100).
Definition scenC_start : State := startGame firstGame scenC_bytes scenC_ghosts.

(** Scenario D: thirteen bytes start in the container at (300, 250), six
    on the ghosts, and byte 19 drifts towards the ghosts.  The player
    holds the button at (300, 250); each second the respawned byte lands
    there again.  Byte 19 reaches the ghosts in the frame of the
    twentieth deposit. *)
Definition scenD_bytes (i : nat) : ByteSeed :=
  if (i <? 13)%nat then byteAt 300 250 0.5
  else if (i <? 19)%nat then byteAt 100 100 0.5
  else byteAt 139 100 0.
Definition scenD_ghosts (_ : nat) : GhostSeed := ghostAt 100 100 0.5.
Definition scenD_second (k : Z) : list Event :=
  [Interval; AnimationFrame (mkFrame (t0 + 16 + 1100 * k) (drawsAt 300 250))].
Definition scenD_events : list Event :=
  [AnimationFrame (mkFrame t0 (drawsAt 300 250));
   MouseMove 300 250; MouseDown;
   AnimationFrame (mkFrame (t0 + 16) (drawsAt 300 250))]
  ++ scenD_second 1 ++ scenD_second 2 ++ scenD_second 3
  ++ scenD_second 4 ++ scenD_second 5 ++ scenD_second 6 ++ [Interval].
Definition scenD_last : Frame := mkFrame (t0 + 16 + 1100 * 7) (drawsAt 300 250).
Definition scenD_start : State := startGame firstGame scenD_bytes scenD_ghosts.

(** Scenario E: every byte starts on the three ghosts. *)
Definition scenE_bytes (_ : nat) : ByteSeed := byteAt 100 100 0.5.
Definition scenE_ghosts (_ : nat) : GhostSeed := ghostAt 100 100 0.5.
Definition scenE_start : State := startGame firstGame scenE_bytes scenE_ghosts.

(** Scenario F: nineteen bytes start in the container at (300, 250) and
    byte 19 drifts towards that place; the ghosts stay in a corner.  The
    player holds the button at (300, 250). *)
Definition scenF_bytes (i : nat) : ByteSeed :=
  if (i <? 19)%nat then byteAt 300 250 0.5 else byteAt 332 250 0.
Definition scenF_ghosts (_ : nat) : GhostSeed := ghostAt 50 350 0.5.
Definition scenF_events : list Event :=
  [AnimationFrame (mkFrame t0 (drawsAt 300 250));
   MouseMove 300 250; MouseDown;
   AnimationFrame (mkFrame (t0 + 16) (drawsAt 300 250));
   Interval].
Definition scenF_last : Frame := mkFrame (t0 + 1116) (drawsAt 300 250).
Definition scenF_start : State := startGame firstGame scenF_bytes scenF_ghosts.

(** Scenario A after its first frame, evaluated, and byte 0 as that frame
    left it. *)
Definition scenA_second : State :=
  Eval vm_compute in gameLoop scenA_frame1 scenA_start.
Definition scenA_eaten : Byte.t :=
  Eval vm_compute in default (newByte (scenA_bytes 0)) (bytes scenA_second !! 0%nat).
Definition scenA_ledger : list (option Cause) :=
  Eval vm_compute in record scenA_start (AnimationFrame scenA_frame1) noCause.

(** The respawn branch of the frame [f] recycles the byte at index [j]. *)
Definition recycles (f : Frame) (s : State) (j : nat) : Prop :=
  gameResult s = playing ∧ spawnDue f s = true
  ∧ ∃ b, list_find (λ byte, Byte.caught byte = true) (bytes s) = Some (j, b).

(** Scenario B before its last frame, and byte 0 as that frame finds it. *)
Definition scenB_held : State :=
  Eval vm_compute in (trace scenB_start noCause scenB_events).1.
Definition scenB_ledger : list (option Cause) :=
  Eval vm_compute in (trace scenB_start noCause scenB_events).2.
Definition scenB_byte : Byte.t :=
  Eval vm_compute in
    default (newByte (scenB_bytes 0)) (byteBefore 0 scenB_last scenB_held).

(** Scenario C before its last frame, and byte 0 as that frame finds it. *)
Definition scenC_held : State :=
  Eval vm_compute in (trace scenC_start noCause scenC_events).1.
Definition scenC_ledger : list (option Cause) :=
  Eval vm_compute in (trace scenC_start noCause scenC_events).2.
Definition scenC_byte : Byte.t :=
  Eval vm_compute in
    default (newByte (scenC_bytes 0)) (byteBefore 0 scenC_last scenC_held).

(** Scenario D before its last frame. *)
Definition scenD_nineteen : State :=
  Eval vm_compute in (trace scenD_start noCause scenD_events).1.
Definition scenD_ledger : list (option Cause) :=
  Eval vm_compute in (trace scenD_start noCause scenD_events).2.

(** The first frame of scenario E. *)
Definition scenE_frame : Frame := mkFrame t0 (drawsAt 300 250).

(** Scenario F before its last frame. *)
Definition scenF_nineteen : State :=
  Eval vm_compute in (trace scenF_start noCause scenF_events).1.
Definition scenF_ledger : list (option Cause) :=
  Eval vm_compute in (trace scenF_start noCause scenF_events).2.

(** Scenario G: as scenario B, with ghost 0 half a pixel closer, so that
    it comes within range in the very frame that picks byte 0 up. *)
Definition scenG_ghosts (i : nat) : GhostSeed :=
  if (i =? 0)%nat then ghostAt 124 100 0 else ghostAt 50 350 0.5.
Definition scenG_start : State := startGame firstGame scenB_bytes scenG_ghosts.
Definition scenG_events : list Event :=
  [AnimationFrame (mkFrame t0 (drawsAt 500 300)); MouseMove 100 100; MouseDown].
Definition scenG_last : Frame := mkFrame (t0 + 16) (drawsAt 500 300).
Definition scenG_ready : State :=
  Eval vm_compute in (trace scenG_start noCause scenG_events).1.
Definition scenG_ledger : list (option Cause) :=
  Eval vm_compute in (trace scenG_start noCause scenG_events).2.

(** The collision test in the words of the specification: the
    Euclidean distance between the centres of two circles is below the
    sum of their radii. *)
Definition spec_collision (a b : Circle) : bool :=
  distance (centerX a) (centerY a) (centerX b) (centerY b) <? radius a + radius b.

(** Scenario H: byte 0 starts 10 to the left of ghost 0 and byte 1 far
    from every ghost; after the first frame the player presses the
    button 27 to the left of byte 1. *)
Definition scenH_bytes (i : nat) : ByteSeed :=
  if (i =? 0)%nat then byteAt 100 100 0.5
  else if (i =? 1)%nat then byteAt 300 100 0.5
  else byteAt 500 300 0.5.
Definition scenH_ghosts (i : nat) : GhostSeed :=
  if (i =? 0)%nat then ghostAt 110 100 0.5 else ghostAt 50 350 0.5.
Definition scenH_start : State := startGame firstGame scenH_bytes scenH_ghosts.
Definition scenH_first : Frame := mkFrame t0 (drawsAt 500 300).
Definition scenH_events : list Event :=
  [AnimationFrame scenH_first; MouseMove 273 100; MouseDown].
Definition scenH_last : Frame := mkFrame (t0 + 16) (drawsAt 500 300).
Definition scenH_ready : State :=
  Eval vm_compute in (trace scenH_start noCause scenH_events).1.
Definition scenH_ledger : list (option Cause) :=
  Eval vm_compute in (trace scenH_start noCause scenH_events).2.
Definition scenH_byte0 : Byte.t :=
  Eval vm_compute in
    default (newByte (scenH_bytes 0)) (byteBefore 0 scenH_first scenH_start).
Definition scenH_byte1 : Byte.t :=
  Eval vm_compute in
    default (newByte (scenH_bytes 1)) (byteBefore 1 scenH_last scenH_ready).

(** Closes a conjunction of closed facts by evaluation. *)
Ltac by_computation :=
  repeat match goal with |- _ ∧ _ => split end; vm_compute; reflexivity.

(** * More of the session *)

(** The play area of a ghost. *)
Definition ghostInBounds (g : Ghost.t) : Prop :=
  0 <= Ghost.x g ∧ Ghost.x g <= canvas_width - Ghost.size g
  ∧ 0 <= Ghost.y g ∧ Ghost.y g <= canvas_height - Ghost.size g.

(** A ghost's size is drawn once, as [15 + Math.random() * 5]. *)
Definition ghostSizeOk (g : Ghost.t) : Prop :=
  15 <= Ghost.size g ∧ Ghost.size g < 20.

(** Velocities are drawn as [(Math.random() - 0.5) * 4] for a byte and
    [(Math.random() - 0.5) * 1.5] for a ghost. *)
Definition byteSpeedOk (b : Byte.t) : Prop :=
  Qabs (Byte.vx b) <= 2 ∧ Qabs (Byte.vy b) <= 2.
Definition ghostSpeedOk (g : Ghost.t) : Prop :=
  Qabs (Ghost.vx g) <= 0.75 ∧ Qabs (Ghost.vy g) <= 0.75.

(** What else holds of every state of a session. *)
Record Kept (s : State) : Prop := mkKept {
  kept_ghost_size : Forall ghostSizeOk (ghosts s);
  kept_ghost_speed : Forall ghostSpeedOk (ghosts s);
  kept_byte_speed : Forall byteSpeedOk (bytes s);
  kept_controller : Controller.size (controller s) = 20;
  kept_time : (0 <= timeLeft s <= 15)%Z;
  kept_won : gameResult s = success → (totalBytes <= caughtBytes s)%Z;
  kept_lost :
    gameResult s = failed →
    (caughtBytes s < totalBytes ∧ totalBytes <= eatenBytes s)%Z ∨ timeLeft s = 0%Z;
  kept_timeout : timeLeft s = 0%Z → gameResult s = failed }.

Definition isMouseMove (e : Event) : bool :=
  match e with MouseMove _ _ => true | _ => false end.
Definition isButton (e : Event) : bool :=
  match e with MouseDown | MouseUp => true | _ => false end.
Definition isInterval (e : Event) : bool :=
  match e with Interval => true | _ => false end.

(** The bytes of the array that carry the [caught] flag. *)
Definition caughtCount (bs : list Byte.t) : Z :=
  sumZ ((λ b, Z.b2z (Byte.caught b)) <$> bs).

(** Pointer events: moves and button changes. *)
Definition isPointer (e : Event) : bool := isMouseMove e || isButton e.

(** * Properties *)

(** ** Numbers *)

Lemma Qltb_lt (a b : Q) : (a <? b) = true ↔ a < b.
Proof.
  unfold Qltb. rewrite negb_true_iff, <- not_true_iff_false, Qle_bool_iff.
  split; [apply Qnot_le_lt | apply Qlt_not_le].
Qed.

Lemma Qltb_ge (a b : Q) : (a <? b) = false ↔ b <= a.
Proof.
  unfold Qltb. rewrite negb_false_iff. apply Qle_bool_iff.
Qed.

Lemma Qle_bool_gt (a b : Q) : (a <=? b) = false ↔ b < a.
Proof.
  rewrite <- not_true_iff_false, Qle_bool_iff.
  split; [apply Qnot_le_lt | apply Qlt_not_le].
Qed.

(** The rounding step of [Math_sqrt]: the result is within one half of
    the root. *)
Lemma roundSqrt_nearest (x : Q) :
  0 <= x →
  let n := inject_Z (roundSqrt x) in
  0 <= n ∧ x <= (n + 1 / 2) ^ 2 ∧ (1 <= n → (n - 1 / 2) ^ 2 <= x).
Proof.
  intros Hx. unfold roundSqrt.
  set (k := Qfloor x).
  assert (Hk0 : (0 <= k)%Z).
  { change 0%Z with (Qfloor 0). by apply Qfloor_resp_le. }
  destruct (Z.sqrt_spec k Hk0) as [Hlo Hhi].
  set (r := Z.sqrt k) in *.
  assert (Hr0 : (0 <= r)%Z) by apply Z.sqrt_nonneg.
  assert (Hkx : inject_Z k <= x) by apply Qfloor_le.
  assert (Hxk : x < inject_Z (k + 1)) by apply Qlt_floor.
  assert (Hlo' : inject_Z r * inject_Z r <= inject_Z k).
  { rewrite <- inject_Z_mult, <- Zle_Qle. exact Hlo. }
  assert (Hhi' : inject_Z (k + 1) <= (inject_Z r + 1) * (inject_Z r + 1)).
  { change 1 with (inject_Z 1). rewrite <- inject_Z_plus, <- inject_Z_mult.
    rewrite <- Zle_Qle. unfold Z.succ in Hhi. lia. }
  assert (Hr0' : 0 <= inject_Z r).
  { change 0 with (inject_Z 0). rewrite <- Zle_Qle. exact Hr0. }
  assert (Hm : inject_Z (r * r + r) + 1 / 4 == (inject_Z r + 1 / 2) ^ 2).
  { rewrite inject_Z_plus, inject_Z_mult. simpl. field. }
  assert (Hs : inject_Z (r + 1) == inject_Z r + 1).
  { rewrite inject_Z_plus. reflexivity. }
  set (middle := inject_Z (r * r + r) + 1 / 4) in *.
  clearbody middle k r. clear Hlo Hhi Hk0 Hr0.
  assert (Ha : (inject_Z r + 1 / 2) ^ 2
               == inject_Z r * inject_Z r + inject_Z r + 1 / 4) by (simpl; field).
  assert (Hb : (inject_Z r - 1 / 2) ^ 2
               == inject_Z r * inject_Z r - inject_Z r + 1 / 4) by (simpl; field).
  assert (Hc : (inject_Z r + 1 + 1 / 2) ^ 2
               == inject_Z r * inject_Z r + 3 * inject_Z r + 9 / 4) by (simpl; field).
  assert (Hd : (inject_Z r + 1 - 1 / 2) ^ 2
               == inject_Z r * inject_Z r + inject_Z r + 1 / 4) by (simpl; field).
  destruct (x <? middle) eqn:E1; [| destruct (middle <? x) eqn:E2;
                                      [| destruct (Z.even r)]].
  - apply Qltb_lt in E1. split; [exact Hr0' |]. rewrite Ha, Hb. split; [lra |].
    intros H1. nra.
  - apply Qltb_lt in E2. rewrite Hs, Hc, Hd. split; [lra |]. split; [nra | lra].
  - apply Qltb_ge in E1, E2. split; [exact Hr0' |]. rewrite Ha, Hb. split; [lra |].
    intros H1. nra.
  - apply Qltb_ge in E1, E2. rewrite Hs, Hc, Hd. split; [lra |]. split; [nra | lra].
Qed.

(** Roots as IEEE 754 has them. *)
Lemma Math_sqrt_examples :
  Math_sqrt 2 = 6369051672525773 # 4503599627370496
  ∧ Math_sqrt 10 = 7120816245988179 # 2251799813685248
  ∧ Math_sqrt 0.5 = 6369051672525773 # 9007199254740992
  ∧ Math_sqrt 100 = 10
  ∧ Math_sqrt 0 = 0.
Proof. by_computation. Qed.

Lemma hitCount_nonneg gs b : (0 <= hitCount gs b)%Z.
Proof.
  induction gs as [|g gs IH]; simpl; [lia |].
  destruct (ghostHits g b); lia.
Qed.

Lemma hitCount_le_length gs b : (hitCount gs b <= Z.of_nat (length gs))%Z.
Proof.
  induction gs as [|g gs IH]; simpl length; simpl; [lia |].
  destruct (ghostHits g b); lia.
Qed.

Lemma hitCount_pos gs b : anyHit gs b = true ↔ (0 < hitCount gs b)%Z.
Proof.
  unfold anyHit. induction gs as [|g gs IH]; simpl.
  - split; [discriminate | lia].
  - pose proof (hitCount_nonneg gs b) as Hn.
    destruct (ghostHits g b); simpl; [split; [lia | reflexivity] |].
    rewrite IH. split; lia.
Qed.

Lemma anyHit_exists gs b :
  anyHit gs b = true ↔ ∃ g, g ∈ gs ∧ ghostHits g b = true.
Proof.
  unfold anyHit. rewrite existsb_exists. split.
  - intros (g & Hin & Hg). exists g. split; [by apply list_elem_of_In | done].
  - intros (g & Hin & Hg). exists g. split; [by apply list_elem_of_In | done].
Qed.

Lemma ghostHits_with_caught g v b :
  ghostHits g (Byte.with_caught v b) = ghostHits g b.
Proof. reflexivity. Qed.

(** The inner [forEach] in closed form: the byte is marked when some
    ghost is in range, and the counter grows by one per such ghost. *)
Lemma eatByte_closed gs b e :
  eatByte gs b e =
    (if anyHit gs b then Byte.with_caught true b else b, (e + hitCount gs b)%Z).
Proof.
  assert (Hmarked : ∀ gs b e, eatByte gs (Byte.with_caught true b) e =
            (Byte.with_caught true b, (e + hitCount gs b)%Z)).
  { clear. intros gs b.
    induction gs as [|g gs IH]; intros e; simpl.
    - f_equal. lia.
    - rewrite ghostHits_with_caught. destruct (ghostHits g b).
      + change (Byte.with_caught true (Byte.with_caught true b))
          with (Byte.with_caught true b). rewrite IH. f_equal. lia.
      + rewrite IH. f_equal. }
  revert e. unfold anyHit.
  induction gs as [|g gs IH]; intros e; simpl.
  - f_equal. lia.
  - destruct (ghostHits g b); simpl.
    + rewrite Hmarked. f_equal. lia.
    + rewrite IH. f_equal.
Qed.

Lemma updateByte_split c d gs b e k w :
  updateByte c d gs b (e, k, w) =
    (byteAfter c d gs b,
     ((e + eatenBy c d gs b)%Z, (k + securedBy c d gs b)%Z,
      if (securedBy c d gs b =? 0)%Z then w else (k + securedBy c d gs b)%Z)).
Proof.
  unfold byteAfter, eatenBy, securedBy, updateByte.
  destruct (negb (Byte.caught b) && negb (Byte.grabbed b)).
  - rewrite !eatByte_closed.
    set (b1 := if anyHit gs _ then _ else _).
    unfold checkContainer.
    destruct (Byte.grabbed b1 && negb (Byte.caught b1)); cbn [fst snd];
      [destruct (inContainer _); cbn [fst snd] |]; cbn [Z.add Z.eqb Pos.add];
      repeat f_equal; lia.
  - unfold checkContainer.
    destruct (Byte.grabbed b && negb (Byte.caught b)); cbn [fst snd];
      [destruct (inContainer _); cbn [fst snd] |]; cbn [Z.add Z.eqb Pos.add];
      repeat f_equal; lia.
Qed.

Lemma updateByte_caught c d gs b :
  Byte.caught b = true →
  byteAfter c d gs b = b ∧ eatenBy c d gs b = 0%Z ∧ securedBy c d gs b = 0%Z.
Proof.
  intros Hc. unfold byteAfter, eatenBy, securedBy, updateByte.
  rewrite Hc. cbn [negb andb]. rewrite Hc. cbn [negb]. by rewrite andb_false_r.
Qed.

Lemma updateByte_held c d gs b :
  Byte.caught b = false → Byte.grabbed b = true →
  eatenBy c d gs b = 0%Z ∧
  (byteAfter c d gs b, securedBy c d gs b) = depositByte (followByte c b) 0.
Proof.
  intros Hc Hg. unfold byteAfter, eatenBy, securedBy, updateByte, depositByte.
  rewrite Hc, Hg. cbn [negb andb]. rewrite Hc, Hg. cbn [negb andb].
  by destruct (checkContainer (followByte c b) 0 0) as [? [? ?]].
Qed.

Lemma grabByte_flags c d b :
  Byte.caught (grabByte c d b) = Byte.caught b
  ∧ Byte.x (grabByte c d b) = Byte.x b ∧ Byte.y (grabByte c d b) = Byte.y b
  ∧ Byte.size (grabByte c d b) = Byte.size b.
Proof. unfold grabByte. by destruct (_ && d). Qed.

Lemma moveByte_flags b :
  Byte.caught (moveByte b) = Byte.caught b
  ∧ Byte.grabbed (moveByte b) = Byte.grabbed b
  ∧ Byte.size (moveByte b) = Byte.size b.
Proof.
  unfold moveByte.
  destruct (bounce (canvas_width - _) _ _), (bounce (canvas_height - _) _ _). done.
Qed.

Lemma followByte_flags c b :
  Byte.caught (followByte c b) = Byte.caught b
  ∧ Byte.grabbed (followByte c b) = Byte.grabbed b
  ∧ Byte.size (followByte c b) = Byte.size b.
Proof. unfold followByte. by destruct (_ >? _). Qed.

(** A byte that starts its update free: moved, tested against the
    controller, tested against every ghost, and only when that left it
    grabbed and not eaten, moved towards the controller and tested
    against the container. *)
Lemma updateByte_free c d gs b :
  Byte.caught b = false → Byte.grabbed b = false →
  let m := grabByte c d (moveByte b) in
  eatenBy c d gs b = hitCount gs m
  ∧ (anyHit gs m = true →
       byteAfter c d gs b = Byte.with_caught true m ∧ securedBy c d gs b = 0%Z)
  ∧ (anyHit gs m = false → Byte.grabbed m = false →
       byteAfter c d gs b = m ∧ securedBy c d gs b = 0%Z)
  ∧ (anyHit gs m = false → Byte.grabbed m = true →
       (byteAfter c d gs b, securedBy c d gs b) = depositByte (followByte c m) 0).
Proof.
  intros Hc Hg m.
  assert (Hm : Byte.caught m = false).
  { unfold m. destruct (grabByte_flags c d (moveByte b)) as [-> _].
    by destruct (moveByte_flags b) as [-> _]. }
  assert (Hu : updateByte c d gs b (0, 0, 0)%Z =
    let b1 := if anyHit gs m then Byte.with_caught true m else m in
    if Byte.grabbed b1 && negb (Byte.caught b1)
    then ((depositByte (followByte c b1) 0).1,
          (hitCount gs m, (depositByte (followByte c b1) 0).2,
           (checkContainer (followByte c b1) 0 0).2.2))
    else (b1, (hitCount gs m, 0%Z, 0%Z))).
  { unfold updateByte, depositByte. rewrite Hc, Hg. cbn [negb andb]. fold m.
    rewrite eatByte_closed. cbn zeta.
    destruct (Byte.grabbed _ && negb _); [| reflexivity].
    by destruct (checkContainer _ 0 0) as [? [? ?]]. }
  unfold byteAfter, eatenBy, securedBy. rewrite Hu. clear Hu. cbn zeta.
  split; [by destruct (Byte.grabbed _ && negb _) |].
  split; [| split].
  - intros ->. cbn [Byte.caught Byte.with_caught negb]. by rewrite andb_false_r.
  - intros -> Hgm. by rewrite Hgm.
  - intros -> Hgm. rewrite Hgm, Hm. cbn [negb andb fst snd].
    by destruct (depositByte (followByte c m) 0).
Qed.

Lemma eatenBy_nonneg c d gs b : (0 <= eatenBy c d gs b)%Z.
Proof.
  destruct (Byte.caught b) eqn:Hc.
  - by destruct (updateByte_caught c d gs b Hc) as (_ & -> & _).
  - destruct (Byte.grabbed b) eqn:Hg.
    + by destruct (updateByte_held c d gs b Hc Hg) as [-> _].
    + destruct (updateByte_free c d gs b Hc Hg) as [-> _]. apply hitCount_nonneg.
Qed.

Lemma depositByte_bounds b k :
  (k <= (depositByte b k).2 <= k + 1)%Z.
Proof. unfold depositByte, checkContainer. destruct (inContainer b); simpl; lia. Qed.

Lemma securedBy_bounds c d gs b : (0 <= securedBy c d gs b <= 1)%Z.
Proof.
  destruct (Byte.caught b) eqn:Hc.
  - destruct (updateByte_caught c d gs b Hc) as (_ & _ & ->). lia.
  - destruct (Byte.grabbed b) eqn:Hg.
    + destruct (updateByte_held c d gs b Hc Hg) as [_ Heq].
      pose proof (depositByte_bounds (followByte c b) 0) as Hb.
      rewrite <- Heq in Hb. exact Hb.
    + destruct (updateByte_free c d gs b Hc Hg) as (_ & H1 & H2 & H3).
      destruct (anyHit gs (grabByte c d (moveByte b))) eqn:Hh.
      * destruct (H1 eq_refl) as [_ ->]. lia.
      * destruct (Byte.grabbed (grabByte c d (moveByte b))) eqn:Hgm.
        -- pose proof (depositByte_bounds (followByte c (grabByte c d (moveByte b))) 0) as Hb.
           rewrite <- (H3 eq_refl eq_refl) in Hb. exact Hb.
        -- destruct (H2 eq_refl eq_refl) as [_ ->]. lia.
Qed.

Lemma sumZ_nonneg {A} (f : A → Z) (l : list A) :
  (∀ a, 0 <= f a)%Z → (0 <= sumZ (f <$> l))%Z.
Proof.
  intros Hf. induction l as [|a l IH]; csimpl; [lia |]. specialize (Hf a). lia.
Qed.

Lemma sumZ_le_length {A} (f : A → Z) (l : list A) :
  (∀ a, f a <= 1)%Z → (sumZ (f <$> l) <= Z.of_nat (length l))%Z.
Proof.
  intros Hf. induction l as [|a l IH]; simpl length; csimpl; [lia |].
  specialize (Hf a). lia.
Qed.

(** [bytes.forEach] in closed form.  The score ends as the deposit
    counter when some update of the frame deposits, since the last call
    of [setBytesWrangled] is the one that stays. *)
Lemma forEachByte_split c d gs bs e k w :
  forEachByte (updateByte c d gs) bs (e, k, w) =
    (byteAfter c d gs <$> bs,
     ((e + sumZ (eatenBy c d gs <$> bs))%Z,
      (k + sumZ (securedBy c d gs <$> bs))%Z,
      if (sumZ (securedBy c d gs <$> bs) =? 0)%Z then w
      else (k + sumZ (securedBy c d gs <$> bs))%Z)).
Proof.
  revert e k w. induction bs as [|b bs IH]; intros e k w.
  - cbn. repeat f_equal; lia.
  - rewrite !fmap_cons. cbn [forEachByte sumZ].
    rewrite updateByte_split, IH.
    pose proof (securedBy_bounds c d gs b) as H1.
    pose proof (sumZ_nonneg (securedBy c d gs) bs
                  (λ x, proj1 (securedBy_bounds c d gs x))) as H2.
    f_equal. f_equal; [f_equal; lia |].
    destruct (Z.eqb_spec (sumZ (securedBy c d gs <$> bs)) 0) as [E0|E0];
      destruct (Z.eqb_spec (securedBy c d gs b) 0) as [E1|E1];
      destruct (Z.eqb_spec (securedBy c d gs b + sumZ (securedBy c d gs <$> bs)) 0);
      lia.
Qed.

(** ** One frame as a whole *)

Lemma gameLoop_playing f s :
  gameResult s = playing →
  gameLoop f s = resultPhase (bytePhase (beforeBytes f s)).
Proof. intros H. unfold gameLoop. by rewrite H. Qed.

Lemma gameLoop_over f s : gameResult s ≠ playing → gameLoop f s = s.
Proof. intros H. unfold gameLoop. by destruct (gameResult s). Qed.

Lemma beforeBytes_frame f s :
  controller (beforeBytes f s) = controller s
  ∧ isDraggingLocal (beforeBytes f s) = isDraggingLocal s
  ∧ caughtBytes (beforeBytes f s) = caughtBytes s
  ∧ eatenBytes (beforeBytes f s) = eatenBytes s
  ∧ gameResult (beforeBytes f s) = gameResult s
  ∧ timeLeft (beforeBytes f s) = timeLeft s
  ∧ bytes (beforeBytes f s) = bytes (spawnPhase f s)
  ∧ ghosts (beforeBytes f s) =
      moveGhost (ghostSpeedMultiplier (caughtBytes s)) <$> ghosts s.
Proof.
  unfold beforeBytes, ghostPhase, spawnPhase. by destruct (spawnDue f s).
Qed.

Lemma bytePhase_fields s :
  let upd := (controller s, isDraggingLocal s, ghosts s) in
  bytes (bytePhase s) =
    byteAfter (controller s) (isDraggingLocal s) (ghosts s) <$> bytes s
  ∧ eatenBytes (bytePhase s) =
      (eatenBytes s
       + sumZ (eatenBy (controller s) (isDraggingLocal s) (ghosts s) <$> bytes s))%Z
  ∧ caughtBytes (bytePhase s) =
      (caughtBytes s
       + sumZ (securedBy (controller s) (isDraggingLocal s) (ghosts s) <$> bytes s))%Z
  ∧ ghosts (bytePhase s) = ghosts s
  ∧ controller (bytePhase s) = controller s
  ∧ isDraggingLocal (bytePhase s) = isDraggingLocal s
  ∧ gameResult (bytePhase s) = gameResult s
  ∧ timeLeft (bytePhase s) = timeLeft s.
Proof.
  unfold bytePhase. rewrite forEachByte_split. done.
Qed.

(** The fields of the state after a frame that ran. *)
Lemma gameLoop_fields f s :
  gameResult s = playing →
  let s1 := beforeBytes f s in
  let c := controller s in
  let d := isDraggingLocal s in
  bytes (gameLoop f s) = byteAfter c d (ghosts s1) <$> bytes s1
  ∧ eatenBytes (gameLoop f s) =
      (eatenBytes s + sumZ (eatenBy c d (ghosts s1) <$> bytes s1))%Z
  ∧ caughtBytes (gameLoop f s) =
      (caughtBytes s + sumZ (securedBy c d (ghosts s1) <$> bytes s1))%Z
  ∧ gameResult (gameLoop f s) =
      checkResult (caughtBytes (gameLoop f s)) (eatenBytes (gameLoop f s))
  ∧ ghosts (gameLoop f s) = ghosts s1
  ∧ controller (gameLoop f s) = c
  ∧ isDraggingLocal (gameLoop f s) = d
  ∧ timeLeft (gameLoop f s) = timeLeft s.
Proof.
  intros Hp s1 c d. rewrite (gameLoop_playing f s Hp). fold s1.
  destruct (bytePhase_fields s1) as (Hb & He & Hk & Hg & Hc & Hd & _ & Ht).
  destruct (beforeBytes_frame f s) as (Hc1 & Hd1 & Hk1 & He1 & _ & Ht1 & _).
  fold s1 in Hc1, Hd1, Hk1, He1, Ht1.
  unfold resultPhase; cbn [bytes eatenBytes caughtBytes gameResult ghosts controller
                            isDraggingLocal timeLeft].
  rewrite Hb, He, Hk, Hg, Hc, Hd, Ht, Hc1, Hd1, Hk1, He1, Ht1. done.
Qed.

(** The interval after a frame that ran. *)
Lemma gameLoop_interval f s :
  gameResult s = playing →
  gameInterval (gameLoop f s) = intervalAfter (gameResult (gameLoop f s)) (gameInterval s).
Proof.
  intros Hp. rewrite (gameLoop_playing f s Hp).
  unfold resultPhase, bytePhase. rewrite forEachByte_split.
  cbn [gameInterval gameResult caughtBytes eatenBytes].
  unfold beforeBytes, ghostPhase, spawnPhase. by destruct (spawnDue f s).
Qed.

(** The countdown touches the result, the time and its own interval
    only. *)
Lemma countdown_frame s :
  bytes (countdown s) = bytes s ∧ ghosts (countdown s) = ghosts s
  ∧ controller (countdown s) = controller s
  ∧ caughtBytes (countdown s) = caughtBytes s
  ∧ eatenBytes (countdown s) = eatenBytes s
  ∧ isDraggingLocal (countdown s) = isDraggingLocal s
  ∧ lastByteSpawn (countdown s) = lastByteSpawn s
  ∧ bytesWrangled (countdown s) = bytesWrangled s.
Proof.
  unfold countdown. destruct (gameInterval s); [| | done];
    by destruct (timeLeft s <=? 1)%Z.
Qed.

(** A tick of a live interval. *)
Lemma countdown_live s :
  gameInterval s ≠ cleared →
  ((timeLeft s <= 1)%Z →
     gameResult (countdown s) = failed ∧ timeLeft (countdown s) = 0%Z
     ∧ gameInterval (countdown s) = cleared)
  ∧ ((1 < timeLeft s)%Z →
       gameResult (countdown s) = gameResult s
       ∧ timeLeft (countdown s) = (timeLeft s - 1)%Z
       ∧ gameInterval (countdown s) = gameInterval s).
Proof.
  intros Hi. unfold countdown.
  destruct (gameInterval s) eqn:E; [| | done];
    (destruct (Z.leb_spec (timeLeft s) 1); split; intros; try lia;
     cbn [gameResult timeLeft gameInterval]; by rewrite ?E).
Qed.

Lemma countdown_cleared s : gameInterval s = cleared → countdown s = s.
Proof. intros E. unfold countdown. by rewrite E. Qed.

(** ** Motion *)

Lemma bounce_spec (limit pos vel : Q) :
  0 <= limit →
  let p := (bounce limit pos vel).1 in
  let v := (bounce limit pos vel).2 in
  0 <= p ∧ p <= limit
  ∧ (pos < 0 → p == 0 ∧ v == - vel)
  ∧ (limit < pos → p == limit ∧ v == - vel)
  ∧ (0 < pos ∧ pos < limit → p = pos ∧ v = vel)
  ∧ Qabs v == Qabs vel.
Proof.
  intros Hl. unfold bounce.
  destruct ((pos <=? 0) || (pos >=? limit)) eqn:E; cbn [fst snd].
  - assert (Hv : vel * -1 == - vel) by ring.
    assert (Ha : Qabs (vel * -1) == Qabs vel) by (rewrite Hv; apply Qabs_opp).
    apply orb_true_iff in E. rewrite !Qle_bool_iff in E.
    destruct (Q.max_spec 0 (Qmin limit pos)) as [[H1 H1']|[H1 H1']];
      destruct (Q.min_spec limit pos) as [[H2 H2']|[H2 H2']];
      repeat split; try tauto; try lra.
  - apply orb_false_iff in E. rewrite !Qle_bool_gt in E.
    repeat split; try reflexivity; lra.
Qed.

Lemma moveByte_fields b :
  Byte.x (moveByte b) =
    (bounce (canvas_width - Byte.size b) (Byte.x b + Byte.vx b) (Byte.vx b)).1
  ∧ Byte.vx (moveByte b) =
    (bounce (canvas_width - Byte.size b) (Byte.x b + Byte.vx b) (Byte.vx b)).2
  ∧ Byte.y (moveByte b) =
    (bounce (canvas_height - Byte.size b) (Byte.y b + Byte.vy b) (Byte.vy b)).1
  ∧ Byte.vy (moveByte b) =
    (bounce (canvas_height - Byte.size b) (Byte.y b + Byte.vy b) (Byte.vy b)).2.
Proof.
  unfold moveByte.
  destruct (bounce (canvas_width - _) _ _), (bounce (canvas_height - _) _ _). done.
Qed.

Lemma moveByte_inBounds b :
  Byte.size b <= canvas_width → Byte.size b <= canvas_height →
  inBounds (moveByte b).
Proof.
  intros Hw Hh. unfold inBounds.
  destruct (moveByte_fields b) as (-> & _ & -> & _).
  destruct (moveByte_flags b) as (_ & _ & ->).
  destruct (bounce_spec (canvas_width - Byte.size b) (Byte.x b + Byte.vx b) (Byte.vx b))
    as (? & ? & _); [lra |].
  destruct (bounce_spec (canvas_height - Byte.size b) (Byte.y b + Byte.vy b) (Byte.vy b))
    as (? & ? & _); [lra |].
  done.
Qed.

Lemma sizeOk_fits b :
  sizeOk b → Byte.size b <= canvas_width ∧ Byte.size b <= canvas_height.
Proof. unfold sizeOk, canvas_width, canvas_height. intros [? ?]. split; lra. Qed.

(** ** What one update does to the flags, the size and the ledger *)

Lemma depositByte_fields b k :
  Byte.size (depositByte b k).1 = Byte.size b
  ∧ (inContainer b = true →
       Byte.caught (depositByte b k).1 = true ∧ (depositByte b k).2 = (k + 1)%Z)
  ∧ (inContainer b = false → depositByte b k = (b, k)).
Proof. unfold depositByte, checkContainer. by destruct (inContainer b). Qed.

Lemma byteAfter_size c d gs b : Byte.size (byteAfter c d gs b) = Byte.size b.
Proof.
  destruct (Byte.caught b) eqn:Hc.
  - by destruct (updateByte_caught c d gs b Hc) as (-> & _).
  - destruct (Byte.grabbed b) eqn:Hg.
    + destruct (updateByte_held c d gs b Hc Hg) as [_ Heq].
      apply (f_equal fst) in Heq. cbn [fst] in Heq. rewrite Heq.
      destruct (depositByte_fields (followByte c b) 0) as (-> & _).
      by destruct (followByte_flags c b) as (_ & _ & ->).
    + destruct (updateByte_free c d gs b Hc Hg) as (_ & H1 & H2 & H3).
      set (m := grabByte c d (moveByte b)) in *.
      assert (Hm : Byte.size m = Byte.size b).
      { unfold m. destruct (grabByte_flags c d (moveByte b)) as (_ & _ & _ & ->).
        by destruct (moveByte_flags b) as (_ & _ & ->). }
      destruct (anyHit gs m) eqn:Hh.
      * destruct (H1 eq_refl) as [-> _]. exact Hm.
      * destruct (Byte.grabbed m) eqn:Hgm.
        -- specialize (H3 eq_refl eq_refl).
           apply (f_equal fst) in H3. cbn [fst] in H3. rewrite H3.
           destruct (depositByte_fields (followByte c m) 0) as (-> & _).
           by destruct (followByte_flags c m) as (_ & _ & ->).
        -- by destruct (H2 eq_refl eq_refl) as [-> _].
Qed.

Lemma deposit_outcome c m :
  Byte.caught m = false → Byte.grabbed m = true →
  let r := depositByte (followByte c m) 0 in
  (Byte.caught r.1 = true ∧ Byte.grabbed r.1 = false ∧ r.2 = 1%Z)
  ∨ (Byte.caught r.1 = false ∧ Byte.grabbed r.1 = true ∧ r.2 = 0%Z).
Proof.
  intros Hc Hg. destruct (followByte_flags c m) as (Hc' & Hg' & _).
  unfold depositByte, checkContainer. destruct (inContainer (followByte c m)); cbn [fst snd].
  - left. done.
  - right. by rewrite Hc', Hg', Hc, Hg.
Qed.

Lemma updateByte_outcome c d gs b :
  Byte.caught b = false → Outcome c d gs b.
Proof.
  intros Hc. destruct (Byte.grabbed b) eqn:Hg.
  - destruct (updateByte_held c d gs b Hc Hg) as [He Heq].
    destruct (deposit_outcome c b Hc Hg) as [(H1 & H2 & H3)|(H1 & H2 & H3)];
      rewrite <- Heq in H1, H2, H3; cbn [fst snd] in H1, H2, H3.
    + by apply outcome_secured.
    + by apply outcome_held.
  - assert (Hfree : isFree b = true) by (unfold isFree; by rewrite Hc, Hg).
    destruct (updateByte_free c d gs b Hc Hg) as (He & H1 & H2 & H3).
    set (m := grabByte c d (moveByte b)) in *.
    assert (Hm : Byte.caught m = false).
    { unfold m. destruct (grabByte_flags c d (moveByte b)) as [-> _].
      by destruct (moveByte_flags b) as [-> _]. }
    destruct (anyHit gs m) eqn:Hh.
    + destruct (H1 eq_refl) as [Hb Hs]. apply outcome_eaten; try done.
      * by rewrite Hb.
      * rewrite He. by apply hitCount_pos.
    + assert (He0 : eatenBy c d gs b = 0%Z).
      { rewrite He. pose proof (hitCount_pos gs m) as Hp.
        pose proof (hitCount_nonneg gs m). rewrite Hh in Hp.
        destruct Hp as [_ Hp]. destruct (hitCount gs m); [done | | lia].
        by specialize (Hp eq_refl). }
      destruct (Byte.grabbed m) eqn:Hgm.
      * specialize (H3 eq_refl eq_refl).
        destruct (deposit_outcome c m Hm Hgm) as [(K1 & K2 & K3)|(K1 & K2 & K3)];
          rewrite <- H3 in K1, K2, K3; cbn [fst snd] in K1, K2, K3.
        -- by apply outcome_secured.
        -- by apply outcome_held.
      * destruct (H2 eq_refl eq_refl) as [Hb Hs].
        apply outcome_free; try done. rewrite Hb. unfold m, grabByte in *.
        destruct (_ && d); [discriminate Hgm | done].
Qed.

Lemma byteAfter_ledger c d gs b l :
  (Byte.caught b = true ↔ is_Some l) →
  (Byte.caught (byteAfter c d gs b) = true ↔ is_Some (causeAfter c d gs b l)).
Proof.
  intros H. unfold causeAfter. destruct (Byte.caught b) eqn:Hc.
  - destruct (updateByte_caught c d gs b Hc) as (-> & -> & ->).
    cbn. by rewrite Hc.
  - assert (Hl : l = None).
    { destruct l; [| done]. destruct H as [_ H]. by specialize (H (mk_is_Some _ _ eq_refl)). }
    subst l.
    destruct (updateByte_outcome c d gs b Hc) as
      [Hk He Hs _ | Hk _ He Hs | Hk _ He Hs | Hb Hf He Hs].
    + apply Z.ltb_lt in He. rewrite He, Hk. split; eauto.
    + rewrite He, Hs, Hk. cbn. split; eauto.
    + rewrite He, Hs, Hk. cbn. split; [done | intros [? ?]; done].
    + rewrite He, Hs, Hb. cbn. destruct (moveByte_flags b) as [-> _].
      rewrite Hc. split; [done | intros [? ?]; done].
Qed.

Lemma frame_ledger c d gs bs L :
  Forall2 (λ b l, Byte.caught b = true ↔ is_Some l) bs L →
  Forall2 (λ b l, Byte.caught b = true ↔ is_Some l)
    (byteAfter c d gs <$> bs) (zip_with (causeAfter c d gs) bs L).
Proof.
  induction 1 as [|b l bs L Hbl _ IH]; csimpl; constructor.
  - by apply byteAfter_ledger.
  - exact IH.
Qed.

Lemma spawn_ledger r bs L :
  Forall2 (λ b l, Byte.caught b = true ↔ is_Some l) bs L →
  Forall2 (λ b l, Byte.caught b = true ↔ is_Some l)
    (spawnBytes r bs) (spawnLedger bs L).
Proof.
  intros H. unfold spawnBytes, spawnLedger.
  destruct (list_find _ bs) as [[i b]|]; [| done].
  apply Forall2_alter; [done |]. intros x y _ _ _. cbn.
  split; [done | intros [? ?]; done].
Qed.

Lemma spawn_size r bs : Forall sizeOk bs → Forall sizeOk (spawnBytes r bs).
Proof.
  intros H. unfold spawnBytes.
  destruct (list_find _ bs) as [[i b]|]; [| done].
  apply Forall_alter; [done |]. intros x _ Hx. exact Hx.
Qed.

Lemma spawn_length r bs : length (spawnBytes r bs) = length bs.
Proof.
  unfold spawnBytes. destruct (list_find _ bs) as [[i b]|]; [| done].
  apply length_alter.
Qed.

Lemma byteAfter_free_inBounds c d gs b :
  sizeOk b → isFree (byteAfter c d gs b) = true → inBounds (byteAfter c d gs b).
Proof.
  intros Hs Hfree. unfold isFree in Hfree.
  apply andb_true_iff in Hfree as [Hc' Hg'].
  apply negb_true_iff in Hc', Hg'.
  destruct (Byte.caught b) eqn:Hc.
  - destruct (updateByte_caught c d gs b Hc) as (Hb & _). rewrite Hb in Hc'. congruence.
  - destruct (updateByte_outcome c d gs b Hc) as
      [Hk _ _ _ | Hk _ _ _ | _ Hg _ _ | Hb _ _ _]; try congruence.
    rewrite Hb. destruct (sizeOk_fits b Hs). by apply moveByte_inBounds.
Qed.

(** ** The invariant *)

Lemma checkResult_playing k e :
  checkResult k e = playing ↔ (k < totalBytes ∧ e < totalBytes)%Z.
Proof.
  unfold checkResult.
  destruct (Z.geb_spec k totalBytes), (Z.geb_spec e totalBytes);
    split; intros; try done; lia.
Qed.

Lemma newByte_ok r :
  validByteSeed r = true →
  sizeOk (newByte r) ∧ inBounds (newByte r) ∧ Byte.caught (newByte r) = false.
Proof.
  unfold validByteSeed, isDraw. rewrite !andb_true_iff, !Qle_bool_iff, !Qltb_lt.
  intros H. unfold sizeOk, inBounds, newByte, canvas_width, canvas_height.
  cbn [Byte.size Byte.x Byte.y Byte.caught]. repeat split; try done; nra.
Qed.

Lemma opened_spec r :
  opened r → react_gameResult r = playing ∧ react_timeLeft r = 15%Z.
Proof. by intros [r0|r0]. Qed.

Lemma Inv_start r rb rg :
  opened r → (∀ i, validByteSeed (rb i) = true) → Inv (startGame r rb rg) noCause.
Proof.
  intros [_ Ht]%opened_spec Hb.
  split; cbn [bytes ghosts caughtBytes eatenBytes gameResult timeLeft startGame];
    rewrite ?Ht.
  - by rewrite length_fmap, length_seq.
  - by rewrite length_fmap, length_seq.
  - unfold noCause. apply Forall2_replicate_r; [by rewrite length_fmap, length_seq |].
    apply Forall_fmap, Forall_forall. intros i _. cbn.
    split; [done | intros [? ?]; done].
  - apply Forall_fmap, Forall_forall. intros i _. apply newByte_ok, Hb.
  - apply Forall_fmap, Forall_forall. intros i _ _. apply newByte_ok, Hb.
  - lia.
  - intros _. unfold totalBytes. lia.
Qed.

Lemma Inv_gameLoop f s L :
  Inv s L → Inv (gameLoop f s) (record s (AnimationFrame f) L).
Proof.
  intros [Hn Hg Hl Hs Hb [Hk He] Hp]. cbn [record].
  destruct (gameResult s) eqn:Hr;
    [| rewrite gameLoop_over by congruence; split; try done; intros ?; congruence ..].
  destruct (gameLoop_fields f s Hr) as (Eb & Ee & Ek & Er & Eg & _ & _ & Et).
  destruct (beforeBytes_frame f s) as (Ec1 & Ed1 & _ & _ & _ & _ & Eb1 & Eg1).
  set (s1 := beforeBytes f s) in *. rewrite Ec1, Ed1.
  set (L1 := if spawnDue f s then spawnLedger (bytes s) L else L).
  assert (Hl1 : Forall2 (λ b l, Byte.caught b = true ↔ is_Some l) (bytes s1) L1).
  { rewrite Eb1. unfold L1, spawnPhase. destruct (spawnDue f s); [| done].
    by apply spawn_ledger. }
  assert (Hs1 : Forall sizeOk (bytes s1)).
  { rewrite Eb1. unfold spawnPhase. destruct (spawnDue f s); [| done].
    by apply spawn_size. }
  assert (Hn1 : length (bytes s1) = Z.to_nat totalBytes).
  { rewrite Eb1. unfold spawnPhase. destruct (spawnDue f s); [| done].
    cbn [bytes]. by rewrite spawn_length. }
  split.
  - by rewrite Eb, length_fmap.
  - by rewrite Eg, Eg1, length_fmap.
  - rewrite Eb. by apply frame_ledger.
  - rewrite Eb. apply Forall_fmap. eapply Forall_impl; [exact Hs1 |].
    intros b [? ?]. unfold sizeOk, compose. by rewrite byteAfter_size.
  - rewrite Eb. apply Forall_fmap. eapply Forall_impl; [exact Hs1 |].
    intros b Hsz. unfold compose. by apply byteAfter_free_inBounds.
  - rewrite Ek, Ee.
    pose proof (sumZ_nonneg (eatenBy (controller s) (isDraggingLocal s) (ghosts s1))
                  (bytes s1) (eatenBy_nonneg _ _ _)).
    pose proof (sumZ_nonneg (securedBy (controller s) (isDraggingLocal s) (ghosts s1))
                  (bytes s1) (λ b, proj1 (securedBy_bounds _ _ _ b))).
    lia.
  - rewrite Er, Et. intros Hplay. apply checkResult_playing in Hplay.
    destruct (Hp eq_refl) as (_ & _ & ?). lia.
Qed.

Lemma Inv_countdown s L : Inv s L → Inv (countdown s) L.
Proof.
  intros [Hn Hg Hl Hs Hb Hc Hp]. unfold countdown.
  destruct (gameInterval s); [| | done];
    (destruct (Z.leb_spec (timeLeft s) 1); split; try done;
     cbn [gameResult timeLeft caughtBytes eatenBytes];
     intros Hr; destruct (Hp Hr) as (? & ? & ?); lia).
Qed.

Lemma Inv_step s L e : Inv s L → Inv (step s e) (record s e L).
Proof.
  intros H. destruct e as [f | | mx my | |].
  - by apply Inv_gameLoop.
  - by apply Inv_countdown.
  - cbn. destruct (decide (gameResult s = playing)); [| done]. by destruct H.
  - cbn. destruct (decide (gameResult s = playing)); [| done]. by destruct H.
  - cbn. destruct (decide (gameResult s = playing)); [| done]. by destruct H.
Qed.

Lemma reachable_Inv s L : reachable s L → Inv s L.
Proof.
  induction 1 as [r rb rg Ho Hb Hg | s L e _ IH _].
  - by apply Inv_start.
  - by apply Inv_step.
Qed.

Lemma reachable_trace s L es :
  reachable s L → forallb validEvent es = true →
  reachable (trace s L es).1 (trace s L es).2.
Proof.
  revert s L. induction es as [|e es IH]; intros s L Hr Hv; cbn [trace].
  - exact Hr.
  - cbn in Hv. apply andb_true_iff in Hv as [He Hv].
    apply IH; [| exact Hv]. by apply reachable_step.
Qed.

(** ** Counters along a run *)

Lemma sumZ_lookup_le {A} (f : A → Z) (l : list A) (i : nat) (a : A) :
  (∀ x, 0 <= f x)%Z → l !! i = Some a → (f a <= sumZ (f <$> l))%Z.
Proof.
  intros Hf. revert i. induction l as [|x l IH]; intros [|i] Hi; try done; csimpl.
  - injection Hi as ->. pose proof (sumZ_nonneg f l Hf). lia.
  - specialize (IH i Hi). specialize (Hf x). lia.
Qed.

Lemma step_counters s e :
  (caughtBytes s <= caughtBytes (step s e))%Z
  ∧ (eatenBytes s <= eatenBytes (step s e))%Z.
Proof.
  destruct e as [f | | mx my | |]; cbn [step].
  - destruct (decide (gameResult s = playing)) as [Hp|Hp].
    + destruct (gameLoop_fields f s Hp) as (_ & -> & -> & _).
      set (s1 := beforeBytes f s).
      pose proof (sumZ_nonneg (eatenBy (controller s) (isDraggingLocal s) (ghosts s1))
                    (bytes s1) (eatenBy_nonneg _ _ _)).
      pose proof (sumZ_nonneg (securedBy (controller s) (isDraggingLocal s) (ghosts s1))
                    (bytes s1) (λ b, proj1 (securedBy_bounds _ _ _ b))).
      lia.
    + rewrite gameLoop_over by done. lia.
  - destruct (countdown_frame s) as (_ & _ & _ & -> & -> & _). lia.
  - destruct (decide _); cbn; lia.
  - destruct (decide _); cbn; lia.
  - destruct (decide _); cbn; lia.
Qed.

Lemma run_counters s es :
  (caughtBytes s <= caughtBytes (run s es))%Z
  ∧ (eatenBytes s <= eatenBytes (run s es))%Z.
Proof.
  revert s. unfold run. induction es as [|e es IH]; intros s; cbn [fold_left]; [lia |].
  destruct (step_counters s e), (IH (step s e)). lia.
Qed.

Lemma ghostSpeedMultiplier_mono (n m : Z) :
  (n <= m)%Z → ghostSpeedMultiplier n <= ghostSpeedMultiplier m.
Proof.
  intros H. unfold ghostSpeedMultiplier.
  destruct (Z.geb_spec n 10), (Z.geb_spec m 10); try lia; by vm_compute.
Qed.

(** ** The respawn branch *)

Lemma spawnPhase_frame f s :
  ghosts (spawnPhase f s) = ghosts s
  ∧ controller (spawnPhase f s) = controller s
  ∧ caughtBytes (spawnPhase f s) = caughtBytes s
  ∧ eatenBytes (spawnPhase f s) = eatenBytes s
  ∧ isDraggingLocal (spawnPhase f s) = isDraggingLocal s
  ∧ gameResult (spawnPhase f s) = gameResult s
  ∧ timeLeft (spawnPhase f s) = timeLeft s
  ∧ bytesWrangled (spawnPhase f s) = bytesWrangled s.
Proof. unfold spawnPhase. by destruct (spawnDue f s). Qed.

Lemma spawnBytes_found r bs i b :
  list_find (λ byte, Byte.caught byte = true) bs = Some (i, b) →
  spawnBytes r bs !! i = Some (respawn r b)
  ∧ (∀ j, j ≠ i → spawnBytes r bs !! j = bs !! j).
Proof.
  intros Hf. unfold spawnBytes. rewrite Hf.
  apply list_find_Some in Hf as (Hi & _ & _). split.
  - by rewrite list_lookup_alter_eq, Hi.
  - intros j Hj. by apply list_lookup_alter_ne.
Qed.

(** ** A frame, byte by byte *)

Lemma gameLoop_byte f s i b :
  gameResult s = playing → byteBefore i f s = Some b →
  byteAtIndex i (gameLoop f s) =
    Some (byteAfter (controller s) (isDraggingLocal s) (ghosts (beforeBytes f s)) b).
Proof.
  intros Hp Hb. unfold byteAtIndex, byteBefore in *.
  destruct (gameLoop_fields f s Hp) as (-> & _).
  by rewrite list_lookup_fmap, Hb.
Qed.

Lemma beforeBytes_sizeOk f s L i b :
  Inv s L → byteBefore i f s = Some b → sizeOk b.
Proof.
  intros HI Hb. unfold byteBefore in Hb.
  destruct (beforeBytes_frame f s) as (_ & _ & _ & _ & _ & _ & Eb & _).
  rewrite Eb in Hb.
  assert (Hs : Forall sizeOk (bytes (spawnPhase f s))).
  { unfold spawnPhase. destruct (spawnDue f s); [| by destruct HI].
    apply spawn_size. by destruct HI. }
  by apply (proj1 (Forall_lookup _ _) Hs i b).
Qed.

Lemma isFree_flags b :
  isFree b = true ↔ Byte.caught b = false ∧ Byte.grabbed b = false.
Proof.
  unfold isFree. rewrite andb_true_iff, !negb_true_iff. done.
Qed.

Lemma isHeld_flags b :
  isHeld b = true ↔ Byte.caught b = false ∧ Byte.grabbed b = true.
Proof.
  unfold isHeld. rewrite andb_true_iff, !negb_true_iff. tauto.
Qed.

(** ** The two collision tests *)

Lemma ghostHits_lt g b :
  ghostHits g b = true ↔
  distance (Byte.x b) (Byte.y b) (Ghost.x g) (Ghost.y g) < Ghost.size g + Byte.size b.
Proof. unfold ghostHits. apply Qltb_lt. Qed.

(** ** The state of a byte *)

Lemma oneOf_flags b : oneOf [isFree b; isHeld b; isCaptured b].
Proof.
  unfold oneOf, isFree, isHeld, isCaptured.
  by destruct (Byte.caught b), (Byte.grabbed b).
Qed.

Lemma oneOf_cause b l :
  (Byte.caught b = true ↔ is_Some l) →
  oneOf [isFree b; isHeld b; depositCaptured b l; consumptionCaptured b l].
Proof.
  intros [H1 H2]. unfold oneOf, isFree, isHeld, depositCaptured, consumptionCaptured.
  destruct (Byte.caught b) eqn:Hc.
  - destruct (H1 eq_refl) as [cause ->]. by destruct cause, (Byte.grabbed b).
  - destruct l as [cause|].
    + by specialize (H2 (mk_is_Some _ _ eq_refl)).
    + by destruct (Byte.grabbed b).
Qed.

Lemma census_total bs L :
  Forall2 (λ b l, Byte.caught b = true ↔ is_Some l) bs L →
  (census (λ b _, isFree b) bs L + census (λ b _, isHeld b) bs L
   + census depositCaptured bs L + census consumptionCaptured bs L
   = Z.of_nat (length bs))%Z.
Proof.
  unfold census. induction 1 as [|b l bs L Hbl _ IH]; [done |].
  pose proof (oneOf_cause b l Hbl) as H1. unfold oneOf in H1.
  cbn [fmap list_fmap sumZ] in H1. cbn [zip_with sumZ length]. lia.
Qed.

(** ** Bytes that are not recycled *)

Lemma spawn_other f s L j :
  ¬ recycles f s j → gameResult s = playing →
  byteBefore j f s = byteAtIndex j s
  ∧ (if spawnDue f s then spawnLedger (bytes s) L else L) !! j = L !! j.
Proof.
  intros Hn Hp. unfold byteBefore, byteAtIndex.
  destruct (beforeBytes_frame f s) as (_ & _ & _ & _ & _ & _ & -> & _).
  unfold spawnPhase, spawnBytes, spawnLedger.
  destruct (spawnDue f s) eqn:Hd; [| done]. cbn [bytes].
  destruct (list_find _ (bytes s)) as [[i b]|] eqn:Hf; [| done].
  assert (i ≠ j).
  { intros ->. apply Hn. split; [done |]. split; [done |]. by exists b. }
  split; by apply list_lookup_alter_ne.
Qed.

Lemma caught_byte_stays f s L j b cause :
  gameResult s = playing → ¬ recycles f s j →
  byteAtIndex j s = Some b → Byte.caught b = true → L !! j = Some (Some cause) →
  byteAtIndex j (gameLoop f s) = Some b
  ∧ record s (AnimationFrame f) L !! j = Some (Some cause).
Proof.
  intros Hp Hn Hb Hc Hl.
  destruct (spawn_other f s L j Hn Hp) as [Eb El].
  rewrite Hb in Eb. rewrite Hl in El.
  destruct (updateByte_caught (controller (beforeBytes f s))
              (isDraggingLocal (beforeBytes f s)) (ghosts (beforeBytes f s)) b Hc)
    as (Ea & Ee & Es).
  split.
  - rewrite (gameLoop_byte f s j b Hp Eb).
    destruct (beforeBytes_frame f s) as (Ec1 & Ed1 & _).
    rewrite Ec1, Ed1 in Ea. by rewrite Ea.
  - cbn [record]. rewrite Hp. cbv zeta. rewrite lookup_zip_with.
    unfold byteBefore in Eb. rewrite Eb, El. cbn [mbind option_bind].
    unfold causeAfter. by rewrite Ee, Es.
Qed.

Lemma other_event_bytes s e L :
  (∀ f, e ≠ AnimationFrame f) → bytes (step s e) = bytes s ∧ record s e L = L.
Proof.
  intros He. destruct e as [f | | mx my | |]; cbn [step record].
  - by destruct (He f).
  - by destruct (countdown_frame s) as (-> & _).
  - by destruct (decide _).
  - by destruct (decide _).
  - by destruct (decide _).
Qed.

(** ** The scenarios are sessions *)

Lemma scenA_reachable : reachable scenA_start noCause.
Proof.
  apply reachable_start; [apply opened_redeploy | idtac ..]; intros i; unfold scenA_bytes, scenA_ghosts;
    repeat case_match; vm_compute; reflexivity.
Qed.

Lemma scenA_second_reachable : reachable scenA_second scenA_ledger.
Proof.
  assert (Hv : validEvent (AnimationFrame scenA_frame1) = true)
    by (vm_compute; reflexivity).
  exact (reachable_step _ _ _ scenA_reachable Hv
           <: reachable scenA_second scenA_ledger).
Qed.

Lemma scenB_reachable : reachable scenB_held scenB_ledger.
Proof.
  assert (H : reachable (trace scenB_start noCause scenB_events).1
                (trace scenB_start noCause scenB_events).2).
  { apply reachable_trace; [| vm_compute; reflexivity].
    apply reachable_start; [apply opened_redeploy | idtac ..]; intros i; unfold scenB_bytes, scenB_ghosts;
      repeat case_match; vm_compute; reflexivity. }
  exact (H <: reachable scenB_held scenB_ledger).
Qed.

Lemma scenC_reachable : reachable scenC_held scenC_ledger.
Proof.
  assert (H : reachable (trace scenC_start noCause scenC_events).1
                (trace scenC_start noCause scenC_events).2).
  { apply reachable_trace; [| vm_compute; reflexivity].
    apply reachable_start; [apply opened_redeploy | idtac ..]; intros i; unfold scenC_bytes, scenC_ghosts;
      repeat case_match; vm_compute; reflexivity. }
  exact (H <: reachable scenC_held scenC_ledger).
Qed.

(** ** What a frame does to the byte at an index *)

Lemma gameLoop_eaten f s i b :
  gameResult s = playing → byteBefore i f s = Some b →
  (eatenBytes s
   + eatenBy (controller s) (isDraggingLocal s) (ghosts (beforeBytes f s)) b
   <= eatenBytes (gameLoop f s))%Z.
Proof.
  intros Hp Hb. destruct (gameLoop_fields f s Hp) as (_ & -> & _).
  pose proof (sumZ_lookup_le
    (eatenBy (controller s) (isDraggingLocal s) (ghosts (beforeBytes f s)))
    (bytes (beforeBytes f s)) i b (eatenBy_nonneg _ _ _) Hb).
  lia.
Qed.

Lemma held_byte_update c d gs b :
  isHeld b = true →
  byteAfter c d gs b = (depositByte (followByte c b) 0).1
  ∧ eatenBy c d gs b = 0%Z
  ∧ securedBy c d gs b = (depositByte (followByte c b) 0).2.
Proof.
  intros Hh. apply isHeld_flags in Hh as [Hc Hg].
  destruct (updateByte_held c d gs b Hc Hg) as [He Heq].
  rewrite <- Heq. done.
Qed.

Lemma hitCount_zero gs b : anyHit gs b = false → hitCount gs b = 0%Z.
Proof.
  intros Hh. pose proof (hitCount_pos gs b) as Hp.
  pose proof (hitCount_nonneg gs b). rewrite Hh in Hp.
  destruct (Z.eq_dec (hitCount gs b) 0%Z) as [|Hne]; [done |].
  assert (Hlt : (0 < hitCount gs b)%Z) by lia.
  apply Hp in Hlt. discriminate Hlt.
Qed.

Lemma hitCount_zero_inv gs b : hitCount gs b = 0%Z → anyHit gs b = false.
Proof.
  intros Hz. destruct (anyHit gs b) eqn:Hh; [| done].
  apply hitCount_pos in Hh. lia.
Qed.

Lemma scenD_reachable : reachable scenD_nineteen scenD_ledger.
Proof.
  assert (H : reachable (trace scenD_start noCause scenD_events).1
                (trace scenD_start noCause scenD_events).2).
  { apply reachable_trace; [| vm_compute; reflexivity].
    apply reachable_start; [apply opened_redeploy | idtac ..]; intros i; unfold scenD_bytes, scenD_ghosts;
      repeat case_match; vm_compute; reflexivity. }
  exact (H <: reachable scenD_nineteen scenD_ledger).
Qed.

Lemma scenE_reachable : reachable scenE_start noCause.
Proof.
  apply reachable_start; [apply opened_redeploy | idtac ..]; intros i; vm_compute; reflexivity.
Qed.

Lemma scenF_reachable : reachable scenF_nineteen scenF_ledger.
Proof.
  assert (H : reachable (trace scenF_start noCause scenF_events).1
                (trace scenF_start noCause scenF_events).2).
  { apply reachable_trace; [| vm_compute; reflexivity].
    apply reachable_start; [apply opened_redeploy | idtac ..]; intros i; unfold scenF_bytes, scenF_ghosts;
      repeat case_match; vm_compute; reflexivity. }
  exact (H <: reachable scenF_nineteen scenF_ledger).
Qed.

(** ** The end of a session *)

Lemma checkResult_cases k e :
  (checkResult k e = success ↔ (totalBytes <= k)%Z)
  ∧ (checkResult k e = failed ↔ (k < totalBytes ∧ totalBytes <= e)%Z).
Proof.
  unfold checkResult.
  destruct (Z.geb_spec k totalBytes), (Z.geb_spec e totalBytes);
    (split; split; intros; try done; lia).
Qed.

(** After the end frames and pointer events do nothing ... *)
Lemma step_over_quiet s e : gameResult s ≠ playing → e ≠ Interval → step s e = s.
Proof.
  intros Hn He. destruct e as [f | | mx my | |]; cbn [step].
  - by apply gameLoop_over.
  - done.
  - by destruct (decide _).
  - by destruct (decide _).
  - by destruct (decide _).
Qed.

(** ... and neither does the countdown, once its interval is cleared. *)
Lemma step_over s e :
  gameResult s ≠ playing → gameInterval s = cleared → step s e = s.
Proof.
  intros Hn Hi. destruct e as [f | | mx my | |];
    try (by apply step_over_quiet).
  by apply countdown_cleared.
Qed.

(** While the game is on the interval is live. *)
Lemma interval_step s e :
  (gameResult s = playing → gameInterval s ≠ cleared) →
  gameResult (step s e) = playing → gameInterval (step s e) ≠ cleared.
Proof.
  intros H. destruct (decide (gameResult s = playing)) as [Hp|Hp].
  - specialize (H Hp). destruct e as [f | | mx my | |]; cbn [step].
    + intros Hp'. rewrite (gameLoop_interval f s Hp), Hp'.
      by destruct (gameInterval s).
    + destruct (countdown_live s H) as [H1 H2].
      destruct (Z.le_gt_cases (timeLeft s) 1) as [Ht|Ht].
      * destruct (H1 Ht) as (-> & _). done.
      * destruct (H2 Ht) as (_ & _ & ->). done.
    + by destruct (decide _).
    + by destruct (decide _).
    + by destruct (decide _).
  - destruct e as [f | | mx my | |];
      try (rewrite step_over_quiet by done; done).
    cbn [step]. intros Hp'. exfalso.
    destruct (decide (gameInterval s = cleared)) as [Hi|Hi].
    + rewrite countdown_cleared in Hp' by done. done.
    + destruct (countdown_live s Hi) as [H1 H2].
      destruct (Z.le_gt_cases (timeLeft s) 1) as [Ht|Ht].
      * destruct (H1 Ht) as (E & _). congruence.
      * destruct (H2 Ht) as (E & _). congruence.
Qed.

Lemma reachable_interval s L :
  reachable s L → gameResult s = playing → gameInterval s ≠ cleared.
Proof.
  induction 1 as [r rb rg Ho Hb Hg | s L e _ IH _].
  - done.
  - by apply interval_step.
Qed.

(** A game that is over stays over, and a lost game stays lost. *)
Lemma step_terminal s e :
  gameResult s ≠ playing →
  gameResult (step s e) ≠ playing
  ∧ (gameResult s = failed → gameResult (step s e) = failed).
Proof.
  intros Hn. destruct e as [f | | mx my | |];
    try (rewrite step_over_quiet by done; done).
  cbn [step]. destruct (decide (gameInterval s = cleared)) as [Hi|Hi].
  - by rewrite countdown_cleared.
  - destruct (countdown_live s Hi) as [H1 H2].
    destruct (Z.le_gt_cases (timeLeft s) 1) as [Ht|Ht].
    + destruct (H1 Ht) as (-> & _). done.
    + destruct (H2 Ht) as (-> & _). done.
Qed.

Lemma run_terminal s es :
  gameResult s ≠ playing →
  gameResult (run s es) ≠ playing
  ∧ (gameResult s = failed → gameResult (run s es) = failed).
Proof.
  revert s. unfold run. induction es as [|e es IH]; intros s Hn; cbn [fold_left];
    [done |].
  destruct (step_terminal s e Hn) as [H1 H2].
  destruct (IH (step s e) H1) as [H3 H4].
  split; [exact H3 |]. intros Hf. apply H4, H2, Hf.
Qed.

(** ** The call of [gameLoop] that [startGame] makes *)

Lemma sumZ_zero {A} (f : A → Z) (l : list A) :
  Forall (λ a, f a = 0%Z) l → sumZ (f <$> l) = 0%Z.
Proof. induction 1 as [|a l Ha _ IH]; csimpl; [done | lia]. Qed.

(** With the button up a free byte is not deposited. *)
Lemma secured_needs_button c gs b :
  isFree b = true → securedBy c false gs b = 0%Z.
Proof.
  intros Hfree. apply isFree_flags in Hfree as [Hc Hg].
  destruct (updateByte_free c false gs b Hc Hg) as (_ & H1 & H2 & _).
  assert (Hm : Byte.grabbed (grabByte c false (moveByte b)) = false).
  { unfold grabByte. rewrite andb_false_r.
    by destruct (moveByte_flags b) as (_ & -> & _). }
  destruct (anyHit gs (grabByte c false (moveByte b))) eqn:Hh.
  - by destruct (H1 eq_refl) as [_ ->].
  - by destruct (H2 eq_refl Hm) as [_ ->].
Qed.

Lemma spawnPhase_free f s :
  Forall (λ b, isFree b = true) (bytes s) →
  Forall (λ b, isFree b = true) (bytes (spawnPhase f s)).
Proof.
  intros H. unfold spawnPhase. destruct (spawnDue f s); [| done]. cbn [bytes].
  unfold spawnBytes. destruct (list_find _ (bytes s)) as [[i b]|]; [| done].
  apply Forall_alter; [done |]. intros x _ _. reflexivity.
Qed.

(** [startGame] calls [gameLoop] with the button up and every byte
    free: that call deposits nothing, so it cannot win. *)
Lemma first_call_no_win r rb rg f :
  opened r →
  caughtBytes (gameLoop f (startGame r rb rg)) = 0%Z
  ∧ gameResult (gameLoop f (startGame r rb rg)) ≠ success.
Proof.
  intros [Hp _]%opened_spec.
  set (s := startGame r rb rg).
  assert (Hp' : gameResult s = playing) by exact Hp.
  destruct (gameLoop_fields f s Hp') as (_ & _ & Ek & Er & _).
  destruct (beforeBytes_frame f s) as (_ & _ & _ & _ & _ & _ & Eb & _).
  assert (Hfree : Forall (λ b, isFree b = true) (bytes (beforeBytes f s))).
  { rewrite Eb. apply spawnPhase_free. unfold s. cbn [bytes startGame].
    apply Forall_fmap, Forall_forall. intros i _. reflexivity. }
  assert (E0 : caughtBytes (gameLoop f s) = 0%Z).
  { rewrite Ek. change (isDraggingLocal s) with false.
    rewrite sumZ_zero; [done |].
    eapply Forall_impl; [exact Hfree |]. intros b Hb. by apply secured_needs_button. }
  split; [exact E0 |]. rewrite Er, E0. intros Hs.
  apply checkResult_cases in Hs. unfold totalBytes in Hs. lia.
Qed.

Lemma scenH_reachable : reachable scenH_ready scenH_ledger.
Proof.
  assert (H : reachable (trace scenH_start noCause scenH_events).1
                        (trace scenH_start noCause scenH_events).2).
  { apply reachable_trace; [| vm_compute; reflexivity].
    apply reachable_start; [apply opened_redeploy | idtac ..]; intros i;
      unfold scenH_bytes, scenH_ghosts; repeat case_match; vm_compute; reflexivity. }
  exact (H <: reachable scenH_ready scenH_ledger).
Qed.

Lemma scenH_start_reachable : reachable scenH_start noCause.
Proof.
  apply reachable_start; [apply opened_redeploy | idtac ..]; intros i;
    unfold scenH_bytes, scenH_ghosts; repeat case_match; vm_compute; reflexivity.
Qed.

(** Scenario E: the call of [gameLoop] that [startGame] makes loses the
    game, and the countdown, set up after it, still takes a second off. *)
Lemma scenE_countdown_goes_on :
  gameInterval scenE_start = unset
  ∧ gameResult (gameLoop scenE_frame scenE_start) = failed
  ∧ timeLeft (gameLoop scenE_frame scenE_start) = 15%Z
  ∧ timeLeft (step (gameLoop scenE_frame scenE_start) Interval) = 14%Z
  ∧ gameResult (step (gameLoop scenE_frame scenE_start) Interval) = failed.
Proof. by_computation. Qed.

Lemma countdown_cases s :
  gameResult s = playing → gameInterval s ≠ cleared → (1 <= timeLeft s)%Z →
  (timeLeft (countdown s) = timeLeft s - 1)%Z
  ∧ (gameResult (countdown s) = failed ↔ timeLeft (countdown s) = 0%Z)
  ∧ (gameResult (countdown s) = playing ↔ (0 < timeLeft (countdown s))%Z).
Proof.
  intros Hp Hi Ht. destruct (countdown_live s Hi) as [H1 H2].
  destruct (Z.le_gt_cases (timeLeft s) 1) as [Hle|Hgt].
  - destruct (H1 Hle) as (-> & -> & _).
    split; [lia |]. split; split; intros; try done; lia.
  - destruct (H2 Hgt) as (-> & -> & _). rewrite Hp.
    split; [lia |]. split; split; intros; try done; lia.
Qed.

(** ** The ledger through a frame *)

Lemma beforeBytes_ledger f s L :
  Inv s L →
  Forall2 (λ b l, Byte.caught b = true ↔ is_Some l)
    (bytes (beforeBytes f s))
    (if spawnDue f s then spawnLedger (bytes s) L else L).
Proof.
  intros [_ _ Hl _ _ _ _].
  destruct (beforeBytes_frame f s) as (_ & _ & _ & _ & _ & _ & -> & _).
  unfold spawnPhase. destruct (spawnDue f s); [| exact Hl].
  by apply spawn_ledger.
Qed.

Lemma gameLoop_ledger f s L i b :
  Inv s L → gameResult s = playing → byteBefore i f s = Some b →
  ∃ l, record s (AnimationFrame f) L !! i
         = Some (causeAfter (controller s) (isDraggingLocal s)
                   (ghosts (beforeBytes f s)) b l)
       ∧ (Byte.caught b = true ↔ is_Some l).
Proof.
  intros HI Hp Hb. unfold byteBefore in Hb.
  destruct (Forall2_lookup_l _ _ _ _ _ (beforeBytes_ledger f s L HI) Hb) as (l & Hl & Hbl).
  exists l. split; [| exact Hbl].
  cbn [record]. rewrite Hp. cbv zeta. rewrite lookup_zip_with, Hb, Hl.
  destruct (beforeBytes_frame f s) as (-> & -> & _). reflexivity.
Qed.

Lemma causeAfter_eaten c d gs b l :
  (0 < eatenBy c d gs b)%Z → causeAfter c d gs b l = Some byGhost.
Proof. intros H. unfold causeAfter. apply Z.ltb_lt in H. by rewrite H. Qed.

Lemma causeAfter_not_eaten c d gs b l :
  eatenBy c d gs b = 0%Z → l ≠ Some byGhost → causeAfter c d gs b l ≠ Some byGhost.
Proof.
  intros H Hl. unfold causeAfter. rewrite H. cbn.
  by destruct (0 <? securedBy c d gs b)%Z.
Qed.

Lemma causeAfter_secured c d gs b l :
  eatenBy c d gs b = 0%Z → securedBy c d gs b = 1%Z →
  causeAfter c d gs b l = Some byDeposit.
Proof. intros He Hs. unfold causeAfter. by rewrite He, Hs. Qed.

Lemma not_caught_no_cause b (l : option Cause) :
  Byte.caught b = false → (Byte.caught b = true ↔ is_Some l) → l = None.
Proof.
  intros Hc [_ H]. destruct l; [| done].
  specialize (H (mk_is_Some _ _ eq_refl)). congruence.
Qed.

(** ** A byte grabbed and eaten in one update *)

Lemma scenG_reachable : reachable scenG_ready scenG_ledger.
Proof.
  assert (H : reachable (trace scenG_start noCause scenG_events).1
                (trace scenG_start noCause scenG_events).2).
  { apply reachable_trace; [| vm_compute; reflexivity].
    apply reachable_start; [apply opened_redeploy | idtac ..]; intros i; unfold scenB_bytes, scenG_ghosts;
      repeat case_match; vm_compute; reflexivity. }
  exact (H <: reachable scenG_ready scenG_ledger).
Qed.

(** The ghost test does not clear [grabbed]: a byte that is grabbed and
    eaten in the same update keeps both flags until it is respawned.  It
    is a captured byte: neither branch of the update applies to it any
    more, and it is not drawn. *)
Lemma grabbed_flag_survives_consumption :
  isFree <$> byteBefore 0 scenG_last scenG_ready = Some true
  ∧ Byte.caught <$> byteAtIndex 0 (gameLoop scenG_last scenG_ready) = Some true
  ∧ Byte.grabbed <$> byteAtIndex 0 (gameLoop scenG_last scenG_ready) = Some true
  ∧ isHeld <$> byteAtIndex 0 (gameLoop scenG_last scenG_ready) = Some false
  ∧ record scenG_ready (AnimationFrame scenG_last) scenG_ledger !! 0%nat
      = Some (Some byGhost)
  ∧ eatenBytes (gameLoop scenG_last scenG_ready) = 1%Z.
Proof. by_computation. Qed.

Lemma bounce_inside (limit pos vel : Q) :
  0 < pos → pos < limit → bounce limit pos vel = (pos, vel).
Proof.
  intros H1 H2. unfold bounce.
  apply Qle_bool_gt in H1, H2. by rewrite H1, H2.
Qed.

Lemma moveGhost_displacement (m : Q) (g : Ghost.t) :
  0 < Ghost.x g + Ghost.vx g * m → Ghost.x g + Ghost.vx g * m < canvas_width - Ghost.size g →
  0 < Ghost.y g + Ghost.vy g * m → Ghost.y g + Ghost.vy g * m < canvas_height - Ghost.size g →
  Ghost.x (moveGhost m g) = Ghost.x g + Ghost.vx g * m
  ∧ Ghost.y (moveGhost m g) = Ghost.y g + Ghost.vy g * m.
Proof.
  intros X1 X2 Y1 Y2. unfold moveGhost.
  by rewrite (bounce_inside _ _ _ X1 X2), (bounce_inside _ _ _ Y1 Y2).
Qed.

(** * The claims of the specification *)

(** C1 (amended): the respawn branch recycles the first byte, in index
    order, whose [caught] flag is set, whichever event captured it, by
    deposit or by a ghost: that byte starts the frame's update free.  A
    captured byte that the branch does not recycle stays as it is, with
    the event that captured it, through the frame, and through every
    countdown and mouse event. *)
Theorem C1_respawn_recycles_first_caught
    (s : State) (L : list (option Cause)) (f : Frame) (j : nat) (b : Byte.t)
    (cause : Cause) :
  reachable s L → gameResult s = playing →
  byteAtIndex j s = Some b → L !! j = Some (Some cause) →
  isCaptured b = true
  ∧ (recycles f s j →
       (∀ k b', (k < j)%nat → byteAtIndex k s = Some b' → isCaptured b' = false)
       ∧ byteBefore j f s = Some (respawn (draws f) b)
       ∧ isFree (respawn (draws f) b) = true)
  ∧ (¬ recycles f s j →
       byteAtIndex j (gameLoop f s) = Some b
       ∧ record s (AnimationFrame f) L !! j = Some (Some cause))
  ∧ (∀ e, (∀ f', e ≠ AnimationFrame f') →
       byteAtIndex j (step s e) = Some b ∧ record s e L !! j = Some (Some cause)).
Proof.
  intros Hr Hp Hb Hl.
  destruct (reachable_Inv s L Hr) as [_ _ HL _ _ _ _].
  assert (Hc : Byte.caught b = true).
  { apply (Forall2_lookup_lr _ _ _ _ _ _ HL Hb Hl). eauto. }
  split; [exact Hc |]. split; [| split].
  - intros (_ & Hd & b0 & Hf).
    pose proof Hf as Hf'. apply list_find_Some in Hf' as (Hj & _ & Hfirst).
    unfold byteAtIndex in Hb. assert (b0 = b) by congruence. subst b0.
    split; [| split].
    + intros k b' Hk Hb'. unfold isCaptured.
      specialize (Hfirst k b' Hb' Hk). by destruct (Byte.caught b').
    + unfold byteBefore.
      destruct (beforeBytes_frame f s) as (_ & _ & _ & _ & _ & _ & -> & _).
      unfold spawnPhase. rewrite Hd. cbn [bytes].
      by destruct (spawnBytes_found (draws f) (bytes s) j b Hf) as [-> _].
    + reflexivity.
  - intros Hn. by apply caught_byte_stays.
  - intros e He. destruct (other_event_bytes s e L He) as [Eb ->].
    unfold byteAtIndex. by rewrite Eb.
Qed.

Lemma C1_respawn_recycles_first_caught_witness :
  byteBefore 0 scenA_frame2 scenA_second = Some (respawn (draws scenA_frame2) scenA_eaten)
  ∧ isFree (respawn (draws scenA_frame2) scenA_eaten) = true.
Proof.
  pose proof scenA_second_reachable as Hr.
  assert (Hp : gameResult scenA_second = playing) by (vm_compute; reflexivity).
  assert (Hb : byteAtIndex 0 scenA_second = Some scenA_eaten) by (vm_compute; reflexivity).
  assert (Hl : scenA_ledger !! 0%nat = Some (Some byGhost)) by (vm_compute; reflexivity).
  assert (Hrec : recycles scenA_frame2 scenA_second 0).
  { split; [exact Hp |]. split; [vm_compute; reflexivity |].
    exists scenA_eaten. vm_compute. reflexivity. }
  destruct (C1_respawn_recycles_first_caught scenA_second scenA_ledger scenA_frame2 0
              scenA_eaten byGhost Hr Hp Hb Hl) as (_ & H & _).
  destruct (H Hrec) as (_ & H1 & H2).
  exact (conj H1 H2).
Defined.

Lemma C1_counterexample :
  reachable scenA_second scenA_ledger
  ∧ scenA_ledger !! 0%nat = Some (Some byGhost)
  ∧ isCaptured <$> byteAtIndex 0 scenA_second = Some true
  ∧ eatenBytes scenA_second = 3%Z
  ∧ gameResult scenA_second = playing
  ∧ validEvent (AnimationFrame scenA_frame2) = true
  ∧ isFree <$> byteAtIndex 0 (gameLoop scenA_frame2 scenA_second) = Some true.
Proof.
  split; [exact scenA_second_reachable |].
  by_computation.
Qed.

(** C2 (amended): in every frame of a session the ghost test is applied
    to each byte that is free (neither caught nor grabbed) when its
    update starts, after its motion step and the controller test, so also
    when that test has just grabbed it: if some ghost is in range the
    byte is marked caught, by consumption, and the consumed counter
    increases.  A byte that is already held when its update starts is not
    tested: it is not consumed, it adds nothing to the consumed counter,
    and it is caught in this frame only by reaching the container. *)
Theorem C2_consumption_test_on_free_bytes
    (s : State) (L : list (option Cause)) (f : Frame) (i : nat) (b : Byte.t) :
  reachable s L → gameResult s = playing → byteBefore i f s = Some b →
  let c := controller s in
  let d := isDraggingLocal s in
  let gs := ghosts (beforeBytes f s) in
  let m := grabByte c d (moveByte b) in
  let L' := record s (AnimationFrame f) L in
  (isFree b = true → anyHit gs m = true →
     ∃ b', byteAtIndex i (gameLoop f s) = Some b'
           ∧ isCaptured b' = true
           ∧ L' !! i = Some (Some byGhost)
           ∧ (eatenBytes s < eatenBytes (gameLoop f s))%Z)
  ∧ (isFree b = true → anyHit gs m = false →
       eatenBy c d gs b = 0%Z ∧ L' !! i ≠ Some (Some byGhost))
  ∧ (isHeld b = true →
       eatenBy c d gs b = 0%Z
       ∧ L' !! i ≠ Some (Some byGhost)
       ∧ byteAtIndex i (gameLoop f s) = Some (depositByte (followByte c b) 0).1
       ∧ (isCaptured (depositByte (followByte c b) 0).1 = true ↔
            inContainer (followByte c b) = true))
  ∧ eatenBytes (gameLoop f s)
      = (eatenBytes s + sumZ (eatenBy c d gs <$> bytes (beforeBytes f s)))%Z.
Proof.
  intros Hr Hp Hb c d gs m L'.
  pose proof (reachable_Inv s L Hr) as HI.
  pose proof (gameLoop_byte f s i b Hp Hb) as Hi. fold c d gs in Hi.
  pose proof (gameLoop_eaten f s i b Hp Hb) as Hle. fold c d gs in Hle.
  destruct (gameLoop_ledger f s L i b HI Hp Hb) as (l & HL & Hbl).
  fold c d gs L' in HL.
  split; [| split; [| split]].
  - intros Hfree Hhit. apply isFree_flags in Hfree as [Hc Hg].
    destruct (updateByte_free c d gs b Hc Hg) as (He & H1 & _). fold m in He, H1.
    destruct (H1 Hhit) as [Ha _].
    assert (Hpos : (0 < eatenBy c d gs b)%Z) by (rewrite He; by apply hitCount_pos).
    exists (byteAfter c d gs b).
    split; [exact Hi |]. split; [by rewrite Ha |].
    split; [by rewrite HL, causeAfter_eaten | lia].
  - intros Hfree Hhit. apply isFree_flags in Hfree as [Hc Hg].
    destruct (updateByte_free c d gs b Hc Hg) as (He & _). fold m in He.
    assert (He0 : eatenBy c d gs b = 0%Z) by (rewrite He; by apply hitCount_zero).
    split; [exact He0 |]. rewrite HL. intros Heq. injection Heq as Heq.
    rewrite (not_caught_no_cause b l Hc Hbl) in Heq.
    by apply (causeAfter_not_eaten c d gs b None He0).
  - intros Hheld. destruct (held_byte_update c d gs b Hheld) as (Ha & He & _).
    apply isHeld_flags in Hheld as [Hc Hg].
    split; [exact He |]. split; [| split; [by rewrite <- Ha |]].
    + rewrite HL. intros Heq. injection Heq as Heq.
      rewrite (not_caught_no_cause b l Hc Hbl) in Heq.
      by apply (causeAfter_not_eaten c d gs b None He).
    + destruct (followByte_flags c b) as (Hc' & _).
      unfold isCaptured, depositByte, checkContainer.
      destruct (inContainer (followByte c b)); cbn [fst]; [done |].
      rewrite Hc', Hc. done.
  - by destruct (gameLoop_fields f s Hp) as (_ & -> & _).
Qed.

Lemma C2_consumption_test_on_free_bytes_witness :
  eatenBy (controller scenB_held) (isDraggingLocal scenB_held)
    (ghosts (beforeBytes scenB_last scenB_held)) scenB_byte = 0%Z
  ∧ byteAtIndex 0 (gameLoop scenB_last scenB_held)
      = Some (depositByte (followByte (controller scenB_held) scenB_byte) 0).1.
Proof.
  assert (Hp : gameResult scenB_held = playing) by (vm_compute; reflexivity).
  assert (Hb : byteBefore 0 scenB_last scenB_held = Some scenB_byte)
    by (vm_compute; reflexivity).
  assert (Hh : isHeld scenB_byte = true) by (vm_compute; reflexivity).
  destruct (C2_consumption_test_on_free_bytes scenB_held scenB_ledger scenB_last 0
              scenB_byte scenB_reachable Hp Hb) as (_ & _ & H & _).
  destruct (H Hh) as (H1 & _ & H2 & _).
  exact (conj H1 H2).
Defined.

Lemma C2_counterexample :
  reachable scenB_held scenB_ledger
  ∧ gameResult scenB_held = playing
  ∧ validEvent (AnimationFrame scenB_last) = true
  ∧ byteBefore 0 scenB_last scenB_held = Some scenB_byte
  ∧ isHeld scenB_byte = true
  ∧ anyHit (ghosts (beforeBytes scenB_last scenB_held)) scenB_byte = true
  ∧ isHeld <$> byteAtIndex 0 (gameLoop scenB_last scenB_held) = Some true
  ∧ isCaptured <$> byteAtIndex 0 (gameLoop scenB_last scenB_held) = Some false
  ∧ record scenB_held (AnimationFrame scenB_last) scenB_ledger !! 0%nat = Some None
  ∧ eatenBytes scenB_held = 0%Z
  ∧ eatenBytes (gameLoop scenB_last scenB_held) = 0%Z.
Proof.
  split; [exact scenB_reachable |].
  by_computation.
Qed.

(** C3: in every state of a session there are 20 bytes; each is in
    exactly one of the states free, held and captured, and, telling the
    captured ones apart by the event that captured them, in exactly one
    of free, held, captured by deposit and captured by consumption; the
    numbers of bytes in these four states add up to 20. *)
Theorem C3_exactly_one_state (s : State) (L : list (option Cause)) :
  reachable s L →
  length (bytes s) = 20%nat
  ∧ length L = 20%nat
  ∧ (∀ i b, byteAtIndex i s = Some b → oneOf [isFree b; isHeld b; isCaptured b])
  ∧ (∀ i b l, byteAtIndex i s = Some b → L !! i = Some l →
       oneOf [isFree b; isHeld b; depositCaptured b l; consumptionCaptured b l])
  ∧ (census (λ b _, isFree b) (bytes s) L
     + census (λ b _, isHeld b) (bytes s) L
     + census depositCaptured (bytes s) L
     + census consumptionCaptured (bytes s) L = totalBytes)%Z.
Proof.
  intros Hr. destruct (reachable_Inv s L Hr) as [Hn _ Hl _ _ _ _].
  split; [exact Hn |]. split; [by rewrite <- (Forall2_length _ _ _ Hl) |].
  split; [intros i b _; apply oneOf_flags |]. split.
  - intros i b l Hb Hi. apply oneOf_cause.
    exact (Forall2_lookup_lr _ _ _ _ _ _ Hl Hb Hi).
  - rewrite (census_total _ _ Hl), Hn. reflexivity.
Qed.

Lemma C3_exactly_one_state_witness :
  (census (λ b _, isFree b) (bytes scenA_second) (record scenA_start (AnimationFrame scenA_frame1) noCause)
   + census (λ b _, isHeld b) (bytes scenA_second) (record scenA_start (AnimationFrame scenA_frame1) noCause)
   + census depositCaptured (bytes scenA_second) (record scenA_start (AnimationFrame scenA_frame1) noCause)
   + census consumptionCaptured (bytes scenA_second) (record scenA_start (AnimationFrame scenA_frame1) noCause)
   = totalBytes)%Z.
Proof.
  pose proof scenA_reachable as Hr.
  assert (Hv : validEvent (AnimationFrame scenA_frame1) = true) by (vm_compute; reflexivity).
  destruct (C3_exactly_one_state _ _ (reachable_step _ _ _ Hr Hv)) as (_ & _ & _ & _ & H).
  exact H.
Defined.

(** C4 (amended): the outcome is evaluated at the end of every frame
    from the two counters, the win check first: it becomes won exactly
    when the deposit counter is at least 20, and lost exactly when the
    deposit counter is below 20 and the consumed counter is at least 20,
    so never both.  The countdown, on its own, takes one second off the
    remaining time and makes the outcome lost exactly when that reaches
    zero; it never makes it won.  Once the outcome is won or lost it
    never returns to in-progress, a lost outcome stays lost, and no frame
    or mouse event changes the state.  The countdown changes nothing
    either once its interval is cleared: by itself when the time is up,
    or by the frame that ends the game, unless that frame is the call of
    [gameLoop] that [startGame] makes before it sets the interval.  That
    call cannot win; after a loss in it the countdown goes on taking
    seconds off the remaining time. *)
Theorem C4_outcome_transitions
    (s : State) (L : list (option Cause)) (f : Frame) :
  reachable s L → gameResult s = playing →
  let s' := gameLoop f s in
  (gameResult s' = success ↔ (totalBytes <= caughtBytes s')%Z)
  ∧ (gameResult s' = failed ↔
       (caughtBytes s' < totalBytes ∧ totalBytes <= eatenBytes s')%Z)
  ∧ (gameResult s' = playing ↔
       (caughtBytes s' < totalBytes ∧ eatenBytes s' < totalBytes)%Z)
  ∧ (timeLeft (countdown s) = timeLeft s - 1)%Z
  ∧ (gameResult (countdown s) = failed ↔ timeLeft (countdown s) = 0%Z)
  ∧ (gameResult (countdown s) = playing ↔ (0 < timeLeft (countdown s))%Z)
  ∧ (∀ es, gameResult s' ≠ playing →
           gameResult (run s' es) ≠ playing
           ∧ (gameResult s' = failed → gameResult (run s' es) = failed))
  ∧ (∀ e, gameResult s' ≠ playing → e ≠ Interval → step s' e = s')
  ∧ (∀ e, gameResult s' ≠ playing → gameInterval s = running → step s' e = s')
  ∧ (gameResult s' = failed → gameInterval s = unset →
       gameInterval s' = running
       ∧ timeLeft (step s' Interval) = (timeLeft s' - 1)%Z
       ∧ gameResult (step s' Interval) = failed)
  ∧ (∀ e, gameResult (countdown s) ≠ playing → step (countdown s) e = countdown s)
  ∧ (∀ r rb rg f0, opened r → gameResult (gameLoop f0 (startGame r rb rg)) ≠ success).
Proof.
  intros Hr Hp s'.
  destruct (reachable_Inv s L Hr) as [_ _ _ _ _ _ Hplay].
  destruct (Hplay Hp) as (_ & _ & Ht & _).
  pose proof (reachable_interval s L Hr Hp) as Hi.
  destruct (gameLoop_fields f s Hp) as (_ & _ & _ & Er & _ & _ & _ & Et).
  pose proof (gameLoop_interval f s Hp) as Ei. fold s' in Er, Et, Ei.
  destruct (checkResult_cases (caughtBytes s') (eatenBytes s')) as [H1 H2].
  destruct (countdown_cases s Hp Hi Ht) as (T1 & T2 & T3).
  rewrite Er.
  split; [exact H1 |]. split; [exact H2 |]. split; [apply checkResult_playing |].
  split; [exact T1 |]. split; [exact T2 |]. split; [exact T3 |].
  rewrite <- Er.
  split; [intros es He; by apply run_terminal |].
  split; [intros e He Hne; by apply step_over_quiet |].
  split; [| split; [| split]].
  - intros e He Hrun. apply step_over; [exact He |].
    rewrite Ei, Hrun. by destruct (gameResult s').
  - intros Hf Hun.
    assert (Hrun : gameInterval s' = running) by (by rewrite Ei, Hun).
    split; [exact Hrun |]. cbn [step].
    assert (Hlive : gameInterval s' ≠ cleared) by (by rewrite Hrun).
    destruct (countdown_live s' Hlive) as [C1 C2].
    destruct (Z.le_gt_cases (timeLeft s') 1) as [Hle|Hgt].
    + destruct (C1 Hle) as (-> & -> & _). split; [lia | done].
    + destruct (C2 Hgt) as (-> & -> & _). done.
  - intros e He. apply step_over; [exact He |].
    destruct (countdown_live s Hi) as [C1 C2].
    destruct (Z.le_gt_cases (timeLeft s) 1) as [Hle|Hgt].
    + by destruct (C1 Hle) as (_ & _ & ->).
    + exfalso. destruct (C2 Hgt) as (E & _). congruence.
  - intros r rb rg f0 Ho. by apply first_call_no_win.
Qed.

Lemma C4_outcome_transitions_witness :
  gameResult (gameLoop scenD_last scenD_nineteen) = success ↔
  (totalBytes <= caughtBytes (gameLoop scenD_last scenD_nineteen))%Z.
Proof.
  assert (Hp : gameResult scenD_nineteen = playing) by (vm_compute; reflexivity).
  destruct (C4_outcome_transitions scenD_nineteen scenD_ledger scenD_last
              scenD_reachable Hp) as (H & _).
  exact H.
Defined.

Lemma C4_counterexample :
  reachable scenD_nineteen scenD_ledger
  ∧ gameResult scenD_nineteen = playing
  ∧ validEvent (AnimationFrame scenD_last) = true
  ∧ caughtBytes scenD_nineteen = 19%Z
  ∧ eatenBytes scenD_nineteen = 18%Z
  ∧ timeLeft scenD_nineteen = 8%Z
  ∧ caughtBytes (gameLoop scenD_last scenD_nineteen) = 20%Z
  ∧ eatenBytes (gameLoop scenD_last scenD_nineteen) = 21%Z
  ∧ (totalBytes <=? eatenBytes (gameLoop scenD_last scenD_nineteen))%Z = true
  ∧ gameResult (gameLoop scenD_last scenD_nineteen) = success.
Proof.
  split; [exact scenD_reachable |].
  by_computation.
Qed.

(** C5 (amended): a byte that is free when its update starts goes
    through the motion step, the controller test and the ghost test, in
    this order; only when this leaves it grabbed and not caught does it
    follow the controller and get the container test.  So a free byte
    with a ghost in range after its motion is consumed and not deposited
    in that frame, even when the controller has just grabbed it.  A byte
    that is already held when its update starts follows the controller
    and gets the container test with no ghost test before it: inside the
    container it is deposited, whether or not a ghost is in range. *)
Theorem C5_order_within_a_frame
    (s : State) (L : list (option Cause)) (f : Frame) (i : nat) (b : Byte.t) :
  reachable s L → gameResult s = playing → byteBefore i f s = Some b →
  let c := controller s in
  let d := isDraggingLocal s in
  let gs := ghosts (beforeBytes f s) in
  let m := grabByte c d (moveByte b) in
  let L' := record s (AnimationFrame f) L in
  (isFree b = true → anyHit gs m = true →
     byteAtIndex i (gameLoop f s) = Some (Byte.with_caught true m)
     ∧ L' !! i = Some (Some byGhost)
     ∧ (0 < eatenBy c d gs b)%Z ∧ securedBy c d gs b = 0%Z)
  ∧ (isFree b = true → anyHit gs m = false → Byte.grabbed m = true →
     byteAtIndex i (gameLoop f s) = Some (depositByte (followByte c m) 0).1
     ∧ eatenBy c d gs b = 0%Z
     ∧ securedBy c d gs b = (depositByte (followByte c m) 0).2)
  ∧ (isFree b = true → anyHit gs m = false → Byte.grabbed m = false →
     byteAtIndex i (gameLoop f s) = Some m
     ∧ eatenBy c d gs b = 0%Z ∧ securedBy c d gs b = 0%Z)
  ∧ (isHeld b = true →
     byteAtIndex i (gameLoop f s) = Some (depositByte (followByte c b) 0).1
     ∧ eatenBy c d gs b = 0%Z
     ∧ securedBy c d gs b = (depositByte (followByte c b) 0).2
     ∧ (inContainer (followByte c b) = true →
          isCaptured (depositByte (followByte c b) 0).1 = true
          ∧ L' !! i = Some (Some byDeposit)
          ∧ securedBy c d gs b = 1%Z)).
Proof.
  intros Hr Hp Hb c d gs m L'.
  pose proof (reachable_Inv s L Hr) as HI.
  pose proof (gameLoop_byte f s i b Hp Hb) as Hi. fold c d gs in Hi.
  destruct (gameLoop_ledger f s L i b HI Hp Hb) as (l & HL & Hbl).
  fold c d gs L' in HL.
  split; [| split; [| split]].
  - intros Hfree Hhit. apply isFree_flags in Hfree as [Hc Hg].
    destruct (updateByte_free c d gs b Hc Hg) as (He & H1 & _). fold m in He, H1.
    destruct (H1 Hhit) as [Ha Hs]. rewrite <- Ha.
    assert (Hpos : (0 < eatenBy c d gs b)%Z) by (rewrite He; by apply hitCount_pos).
    split; [exact Hi |]. split; [by rewrite HL, causeAfter_eaten |].
    split; [exact Hpos | exact Hs].
  - intros Hfree Hhit Hgm. apply isFree_flags in Hfree as [Hc Hg].
    destruct (updateByte_free c d gs b Hc Hg) as (He & _ & _ & H3). fold m in He, H3.
    specialize (H3 Hhit Hgm). rewrite <- H3. cbn [fst snd].
    split; [exact Hi |]. split; [| done]. rewrite He. by apply hitCount_zero.
  - intros Hfree Hhit Hgm. apply isFree_flags in Hfree as [Hc Hg].
    destruct (updateByte_free c d gs b Hc Hg) as (He & _ & H2 & _). fold m in He, H2.
    destruct (H2 Hhit Hgm) as [Ha Hs]. rewrite <- Ha.
    split; [exact Hi |]. split; [| exact Hs]. rewrite He. by apply hitCount_zero.
  - intros Hheld. destruct (held_byte_update c d gs b Hheld) as (Ha & He & Hs).
    rewrite <- Ha. split; [exact Hi |]. split; [exact He |]. split; [exact Hs |].
    intros Hin.
    assert (Hs1 : securedBy c d gs b = 1%Z).
    { rewrite Hs. unfold depositByte, checkContainer. by rewrite Hin. }
    split; [| split; [| exact Hs1]].
    + rewrite Ha. unfold isCaptured, depositByte, checkContainer. by rewrite Hin.
    + by rewrite HL, causeAfter_secured.
Qed.

Lemma C5_order_within_a_frame_witness :
  byteAtIndex 0 (gameLoop scenC_last scenC_held)
    = Some (depositByte (followByte (controller scenC_held) scenC_byte) 0).1
  ∧ eatenBy (controller scenC_held) (isDraggingLocal scenC_held)
      (ghosts (beforeBytes scenC_last scenC_held)) scenC_byte = 0%Z.
Proof.
  assert (Hp : gameResult scenC_held = playing) by (vm_compute; reflexivity).
  assert (Hb : byteBefore 0 scenC_last scenC_held = Some scenC_byte)
    by (vm_compute; reflexivity).
  assert (Hh : isHeld scenC_byte = true) by (vm_compute; reflexivity).
  destruct (C5_order_within_a_frame scenC_held scenC_ledger scenC_last 0 scenC_byte
              scenC_reachable Hp Hb) as (_ & _ & _ & H).
  destruct (H Hh) as (H1 & H2 & _).
  exact (conj H1 H2).
Defined.

Lemma C5_counterexample :
  reachable scenC_held scenC_ledger
  ∧ gameResult scenC_held = playing
  ∧ validEvent (AnimationFrame scenC_last) = true
  ∧ byteBefore 0 scenC_last scenC_held = Some scenC_byte
  ∧ isHeld scenC_byte = true
  ∧ anyHit (ghosts (beforeBytes scenC_last scenC_held)) scenC_byte = true
  ∧ anyHit (ghosts (beforeBytes scenC_last scenC_held))
      (followByte (controller scenC_held) scenC_byte) = true
  ∧ inContainer (followByte (controller scenC_held) scenC_byte) = true
  ∧ isCaptured <$> byteAtIndex 0 (gameLoop scenC_last scenC_held) = Some true
  ∧ record scenC_held (AnimationFrame scenC_last) scenC_ledger !! 0%nat
      = Some (Some byDeposit)
  ∧ caughtBytes scenC_held = 0%Z
  ∧ caughtBytes (gameLoop scenC_last scenC_held) = 1%Z
  ∧ eatenBytes (gameLoop scenC_last scenC_held) = 0%Z.
Proof.
  split; [exact scenC_reachable |].
  by_computation.
Qed.

(** C6 (amended): along every session the deposit counter and the
    consumed counter never decrease and are never negative; each is
    below 20 for as long as the outcome is in progress, that is, at the
    start of every frame that runs; and one frame raises the deposit
    counter by at most the number of bytes.  The counters are cumulative:
    the frame that ends a session can leave either of them above 20. *)
Theorem C6_counters_never_decrease
    (s : State) (L : list (option Cause)) (e : Event) :
  reachable s L →
  (caughtBytes s <= caughtBytes (step s e))%Z
  ∧ (eatenBytes s <= eatenBytes (step s e))%Z
  ∧ (0 <= caughtBytes s)%Z
  ∧ (0 <= eatenBytes s)%Z
  ∧ (gameResult s = playing →
       (caughtBytes s < totalBytes)%Z ∧ (eatenBytes s < totalBytes)%Z)
  ∧ (caughtBytes (step s e) <= caughtBytes s + totalBytes)%Z.
Proof.
  intros Hr. destruct (reachable_Inv s L Hr) as [Hn _ _ _ _ [Hk He] Hplay].
  destruct (step_counters s e) as [Hck Hce].
  split; [exact Hck |]. split; [exact Hce |]. split; [exact Hk |]. split; [exact He |].
  split; [intros Hp; destruct (Hplay Hp) as (? & ? & _); done |].
  destruct e as [f | | mx my | |]; cbn [step].
  - destruct (decide (gameResult s = playing)) as [Hp|Hp].
    + destruct (gameLoop_fields f s Hp) as (_ & _ & -> & _).
      pose proof (sumZ_le_length
        (securedBy (controller s) (isDraggingLocal s) (ghosts (beforeBytes f s)))
        (bytes (beforeBytes f s)) (λ b, proj2 (securedBy_bounds _ _ _ b))) as Hs.
      assert (Hlen : length (bytes (beforeBytes f s)) = Z.to_nat totalBytes).
      { destruct (beforeBytes_frame f s) as (_ & _ & _ & _ & _ & _ & -> & _).
        unfold spawnPhase. destruct (spawnDue f s); [| exact Hn].
        cbn [bytes]. by rewrite spawn_length. }
      rewrite Hlen in Hs. unfold totalBytes in *. lia.
    + rewrite gameLoop_over by done. unfold totalBytes. lia.
  - destruct (countdown_frame s) as (_ & _ & _ & -> & _). unfold totalBytes. lia.
  - destruct (decide _); cbn; unfold totalBytes; lia.
  - destruct (decide _); cbn; unfold totalBytes; lia.
  - destruct (decide _); cbn; unfold totalBytes; lia.
Qed.

Lemma C6_counters_never_decrease_witness :
  (caughtBytes scenF_nineteen
   <= caughtBytes (step scenF_nineteen (AnimationFrame scenF_last)))%Z
  ∧ (eatenBytes scenF_nineteen
     <= eatenBytes (step scenF_nineteen (AnimationFrame scenF_last)))%Z.
Proof.
  destruct (C6_counters_never_decrease scenF_nineteen scenF_ledger
              (AnimationFrame scenF_last) scenF_reachable) as (H1 & H2 & _).
  exact (conj H1 H2).
Defined.

Lemma C6_counterexample :
  reachable scenE_start noCause
  ∧ validEvent (AnimationFrame scenE_frame) = true
  ∧ eatenBytes scenE_start = 0%Z
  ∧ eatenBytes (gameLoop scenE_frame scenE_start) = 60%Z
  ∧ reachable scenF_nineteen scenF_ledger
  ∧ gameResult scenF_nineteen = playing
  ∧ validEvent (AnimationFrame scenF_last) = true
  ∧ caughtBytes scenF_nineteen = 19%Z
  ∧ caughtBytes (gameLoop scenF_last scenF_nineteen) = 21%Z
  ∧ (totalBytes <? caughtBytes (gameLoop scenF_last scenF_nineteen))%Z = true.
Proof.
  split; [exact scenE_reachable |].
  do 3 (split; [by_computation |]).
  split; [exact scenF_reachable |].
  by_computation.
Qed.

(** C7 (amended): in every frame of a session each byte takes the
    update of [bytes.forEach], and both collision tests of that update
    compare, strictly, the Euclidean distance that [Math.sqrt] computes
    between the stored positions of the two entities with the sum of
    their sizes.  A free byte, after its motion step, is grabbed exactly
    when the button is down and its distance to the controller is below
    the sum of the two sizes; it is then tested once against each ghost,
    as the ghosts stand after their own move: the consumed counter grows
    by one for each ghost whose distance to it is below the sum of the
    two sizes, and the byte is marked caught as soon as there is one.  A
    byte that is held or caught takes neither test.  The frame adds to
    the consumed counter what the updates of its bytes add.  (The stored
    position of a byte or ghost is the corner of the box in which its
    circle is drawn and its size the diameter, so these are not tests on
    the circles.) *)
Theorem C7_collision_tests
    (s : State) (L : list (option Cause)) (f : Frame) (i : nat) (b : Byte.t) :
  reachable s L → gameResult s = playing → byteBefore i f s = Some b →
  let c := controller s in
  let d := isDraggingLocal s in
  let gs := ghosts (beforeBytes f s) in
  let m := moveByte b in
  let toController :=
    distance (Byte.x m) (Byte.y m) (Controller.x c) (Controller.y c) in
  let toGhost g := distance (Byte.x m) (Byte.y m) (Ghost.x g) (Ghost.y g) in
  byteAtIndex i (gameLoop f s) = Some (byteAfter c d gs b)
  ∧ eatenBytes (gameLoop f s) =
      (eatenBytes s + sumZ (eatenBy c d gs <$> bytes (beforeBytes f s)))%Z
  ∧ gs = moveGhost (ghostSpeedMultiplier (caughtBytes s)) <$> ghosts s
  ∧ (isFree b = true →
       (Byte.grabbed (grabByte c d m) = true ↔
          d = true ∧ toController < Controller.size c + Byte.size m)
       ∧ (∀ g, ghostHits g (grabByte c d m) = true ↔
               toGhost g < Ghost.size g + Byte.size m)
       ∧ eatenBy c d gs b = hitCount gs (grabByte c d m)
       ∧ ((0 < eatenBy c d gs b)%Z ↔
            ∃ g, g ∈ gs ∧ toGhost g < Ghost.size g + Byte.size m)
       ∧ ((0 < eatenBy c d gs b)%Z →
            byteAfter c d gs b = Byte.with_caught true (grabByte c d m))
       ∧ (eatenBy c d gs b = 0%Z → Byte.grabbed (grabByte c d m) = false →
            byteAfter c d gs b = m))
  ∧ (isFree b = false →
       eatenBy c d gs b = 0%Z
       ∧ (Byte.caught b = true → byteAfter c d gs b = b)
       ∧ (isHeld b = true →
            byteAfter c d gs b = (depositByte (followByte c b) 0).1)).
Proof.
  intros Hr Hp Hb c d gs m toController toGhost.
  destruct (gameLoop_fields f s Hp) as (_ & Ee & _).
  destruct (beforeBytes_frame f s) as (_ & _ & _ & _ & _ & _ & _ & Eg).
  split; [exact (gameLoop_byte f s i b Hp Hb) |].
  split; [exact Ee |]. split; [exact Eg |]. split.
  - intros Hfree. apply isFree_flags in Hfree as [Hc Hg].
    destruct (moveByte_flags b) as (Hmc & Hmg & _). fold m in Hmc, Hmg.
    destruct (grabByte_flags c d m) as (_ & Ex & Ey & Es).
    destruct (updateByte_free c d gs b Hc Hg) as (He & H1 & H2 & _).
    fold m in He, H1, H2.
    assert (Hhit : ∀ g, ghostHits g (grabByte c d m) = true ↔
                        toGhost g < Ghost.size g + Byte.size m).
    { intros g. rewrite ghostHits_lt, Ex, Ey, Es. done. }
    split; [| split; [exact Hhit | split; [exact He | split; [| split]]]].
    + unfold grabByte. fold toController.
      destruct (toController <? Controller.size c + Byte.size m) eqn:Ht.
      * apply Qltb_lt in Ht.
        destruct d; cbn [andb Byte.grabbed Byte.with_target Byte.with_grabbed].
        -- tauto.
        -- rewrite Hmg, Hg. split; [done | by intros [? _]].
      * apply Qltb_ge in Ht. cbn [andb]. rewrite Hmg, Hg.
        split; [done |]. intros [_ Hlt]. exfalso. lra.
    + rewrite He, <- hitCount_pos, anyHit_exists.
      split; intros (g & Hin & Hh); exists g; (split; [done |]); by apply Hhit.
    + rewrite He. intros Hpos. apply hitCount_pos in Hpos.
      by destruct (H1 Hpos) as [-> _].
    + rewrite He. intros Hz Hgm. apply hitCount_zero_inv in Hz.
      destruct (H2 Hz Hgm) as [-> _]. revert Hgm. unfold grabByte.
      by destruct (_ && d).
  - intros Hnf. destruct (Byte.caught b) eqn:Hc.
    + destruct (updateByte_caught c d gs b Hc) as (Ea & E0 & _).
      split; [exact E0 |]. split; [by intros _ |].
      unfold isHeld. rewrite Hc, andb_false_r. done.
    + destruct (Byte.grabbed b) eqn:Hg.
      * assert (Hh : isHeld b = true) by (apply isHeld_flags; done).
        destruct (held_byte_update c d gs b Hh) as (Ea & E0 & _).
        split; [exact E0 |]. split; [done | by intros _].
      * exfalso. unfold isFree in Hnf. rewrite Hc, Hg in Hnf. done.
Qed.

Lemma C7_collision_tests_witness :
  byteAtIndex 0 (gameLoop scenH_first scenH_start)
  = Some (byteAfter (controller scenH_start) (isDraggingLocal scenH_start)
            (ghosts (beforeBytes scenH_first scenH_start)) scenH_byte0).
Proof.
  assert (Hp : gameResult scenH_start = playing) by reflexivity.
  assert (Hb : byteBefore 0 scenH_first scenH_start = Some scenH_byte0)
    by (vm_compute; reflexivity).
  destruct (C7_collision_tests scenH_start noCause scenH_first 0 scenH_byte0
              scenH_start_reachable Hp Hb) as (H & _).
  exact H.
Defined.

(** In the first frame of scenario H byte 0 is consumed by ghost 0 while
    their circles are apart: the centres are 13.9 from each other and the
    radii add up to 11.5.  In its second frame byte 1 is grabbed while
    its circle is apart from the controller's: the centres are 31.2 from
    each other and the radii add up to 24. *)
Lemma C7_counterexample :
  reachable scenH_start noCause
  ∧ gameResult scenH_start = playing
  ∧ validEvent (AnimationFrame scenH_first) = true
  ∧ byteBefore 0 scenH_first scenH_start = Some scenH_byte0
  ∧ isFree scenH_byte0 = true
  ∧ forallb (λ g, negb (spec_collision (byteArc (moveByte scenH_byte0)) (ghostArc g)))
      (ghosts (beforeBytes scenH_first scenH_start)) = true
  ∧ (isCaptured <$> byteAtIndex 0 (gameLoop scenH_first scenH_start)) = Some true
  ∧ eatenBytes (gameLoop scenH_first scenH_start) = 1%Z
  ∧ reachable scenH_ready scenH_ledger
  ∧ gameResult scenH_ready = playing
  ∧ validEvent (AnimationFrame scenH_last) = true
  ∧ byteBefore 1 scenH_last scenH_ready = Some scenH_byte1
  ∧ isFree scenH_byte1 = true
  ∧ spec_collision (byteArc (moveByte scenH_byte1))
      (controllerArc (controller scenH_ready)) = false
  ∧ (isHeld <$> byteAtIndex 1 (gameLoop scenH_last scenH_ready)) = Some true.
Proof.
  split; [exact scenH_start_reachable |].
  do 7 (split; [vm_compute; reflexivity |]).
  split; [exact scenH_reachable |].
  by_computation.
Qed.



(** C9: the ghost speed multiplier is recomputed in every frame from the
    deposit counter alone: it is 2.0 once the counter has reached 10 and
    1.0 below; every ghost moves by its velocity times that value; and
    since the counter never decreases along a session, the multiplier
    never decreases, so that once it is 2.0 it stays 2.0. *)
Theorem C9_ghost_speed_multiplier :
  ∀ (s : State) (f : Frame) (es : list Event),
    let m := ghostSpeedMultiplier (caughtBytes s) in
    ((10 <= caughtBytes s)%Z → m = 2.0)
    ∧ ((caughtBytes s < 10)%Z → m = 1.0)
    ∧ (gameResult s = playing → ghosts (gameLoop f s) = moveGhost m <$> ghosts s)
    ∧ (∀ g,
         0 < Ghost.x g + Ghost.vx g * m →
         Ghost.x g + Ghost.vx g * m < canvas_width - Ghost.size g →
         0 < Ghost.y g + Ghost.vy g * m →
         Ghost.y g + Ghost.vy g * m < canvas_height - Ghost.size g →
         Ghost.x (moveGhost m g) = Ghost.x g + Ghost.vx g * m
         ∧ Ghost.y (moveGhost m g) = Ghost.y g + Ghost.vy g * m)
    ∧ (caughtBytes s <= caughtBytes (run s es))%Z
    ∧ m <= ghostSpeedMultiplier (caughtBytes (run s es))
    ∧ (m = 2.0 → ghostSpeedMultiplier (caughtBytes (run s es)) = 2.0).
Proof.
  intros s f es m. destruct (run_counters s es) as [Hc _].
  split; [| split; [| split; [| split; [| split; [| split]]]]].
  - intros H. unfold m, ghostSpeedMultiplier.
    by destruct (Z.geb_spec (caughtBytes s) 10); [| lia].
  - intros H. unfold m, ghostSpeedMultiplier.
    by destruct (Z.geb_spec (caughtBytes s) 10); [lia |].
  - intros Hp. destruct (gameLoop_fields f s Hp) as (_ & _ & _ & _ & -> & _).
    by destruct (beforeBytes_frame f s) as (_ & _ & _ & _ & _ & _ & _ & ->).
  - intros g. apply moveGhost_displacement.
  - exact Hc.
  - by apply ghostSpeedMultiplier_mono.
  - unfold m, ghostSpeedMultiplier.
    destruct (Z.geb_spec (caughtBytes s) 10); [| discriminate].
    intros _. by destruct (Z.geb_spec (caughtBytes (run s es)) 10); [| lia].
Qed.

(** C10: when the respawn branch recycles a caught byte, that byte gets
    a new position, velocity and color from the five draws and has both
    flags cleared; its size (and its follow target) stay as they were,
    every other byte is left as it was, and so are the ghosts, the
    controller, the deposit counter and the consumed counter. *)
Theorem C10_respawn_frame (f : Frame) (s : State) (i : nat) (b : Byte.t) :
  spawnDue f s = true →
  list_find (λ byte, Byte.caught byte = true) (bytes s) = Some (i, b) →
  let s' := spawnPhase f s in
  let b' := respawn (draws f) b in
  bytes s' !! i = Some b'
  ∧ Byte.x b' = draw_x (draws f) * (canvas_width - 20)
  ∧ Byte.y b' = draw_y (draws f) * (canvas_height - 20)
  ∧ Byte.vx b' = (draw_vx (draws f) - 0.5) * 4
  ∧ Byte.vy b' = (draw_vy (draws f) - 0.5) * 4
  ∧ Byte.color b' = hsl (draw_hue (draws f) * 360) 70 60
  ∧ Byte.caught b' = false ∧ Byte.grabbed b' = false
  ∧ Byte.size b' = Byte.size b
  ∧ Byte.targetX b' = Byte.targetX b ∧ Byte.targetY b' = Byte.targetY b
  ∧ (∀ j, j ≠ i → bytes s' !! j = bytes s !! j)
  ∧ length (bytes s') = length (bytes s)
  ∧ ghosts s' = ghosts s
  ∧ controller s' = controller s
  ∧ caughtBytes s' = caughtBytes s
  ∧ eatenBytes s' = eatenBytes s
  ∧ bytesWrangled s' = bytesWrangled s.
Proof.
  intros Hd Hf s' b'.
  destruct (spawnPhase_frame f s) as (Hg & Hc & Hk & He & _ & _ & _ & Hw).
  assert (Hb : bytes s' = spawnBytes (draws f) (bytes s)).
  { unfold s', spawnPhase. by rewrite Hd. }
  destruct (spawnBytes_found (draws f) (bytes s) i b Hf) as [Hi Hj].
  rewrite Hb. repeat split; try done. apply spawn_length.
Qed.

Lemma C10_respawn_frame_witness :
  bytes (spawnPhase scenA_frame2 scenA_second) !! 0%nat
    = Some (respawn (draws scenA_frame2) scenA_eaten)
  ∧ Byte.size (respawn (draws scenA_frame2) scenA_eaten) = Byte.size scenA_eaten
  ∧ ghosts (spawnPhase scenA_frame2 scenA_second) = ghosts scenA_second
  ∧ eatenBytes (spawnPhase scenA_frame2 scenA_second) = eatenBytes scenA_second
  ∧ caughtBytes (spawnPhase scenA_frame2 scenA_second) = caughtBytes scenA_second.
Proof.
  assert (Hdue : spawnDue scenA_frame2 scenA_second = true)
    by (vm_compute; reflexivity).
  assert (Hfind : list_find (λ byte, Byte.caught byte = true) (bytes scenA_second)
                  = Some (0%nat, scenA_eaten))
    by (vm_compute; reflexivity).
  destruct (C10_respawn_frame scenA_frame2 scenA_second 0 scenA_eaten Hdue Hfind)
    as (H1 & _ & _ & _ & _ & _ & _ & _ & H2 & _ & _ & _ & _ & H3 & _ & H4 & H5 & _).
  exact (conj H1 (conj H2 (conj H3 (conj H5 H4)))).
Defined.

(** * Further properties of the game *)

(** ** Sizes, speeds and the score through a session *)

Lemma bounce_abs (limit pos vel : Q) : Qabs (bounce limit pos vel).2 == Qabs vel.
Proof.
  unfold bounce. destruct ((pos <=? 0) || (pos >=? limit)); cbn [snd]; [| reflexivity].
  assert (Hv : vel * -1 == - vel) by ring.
  rewrite Hv. apply Qabs_opp.
Qed.

Lemma moveGhost_fields m g :
  Ghost.size (moveGhost m g) = Ghost.size g
  ∧ Ghost.x (moveGhost m g) =
      (bounce (canvas_width - Ghost.size g) (Ghost.x g + Ghost.vx g * m) (Ghost.vx g)).1
  ∧ Ghost.vx (moveGhost m g) =
      (bounce (canvas_width - Ghost.size g) (Ghost.x g + Ghost.vx g * m) (Ghost.vx g)).2
  ∧ Ghost.y (moveGhost m g) =
      (bounce (canvas_height - Ghost.size g) (Ghost.y g + Ghost.vy g * m) (Ghost.vy g)).1
  ∧ Ghost.vy (moveGhost m g) =
      (bounce (canvas_height - Ghost.size g) (Ghost.y g + Ghost.vy g * m) (Ghost.vy g)).2.
Proof.
  unfold moveGhost.
  destruct (bounce (canvas_width - _) _ _), (bounce (canvas_height - _) _ _). done.
Qed.

Lemma moveGhost_kept m g :
  ghostSizeOk g → ghostSpeedOk g →
  ghostSizeOk (moveGhost m g) ∧ ghostSpeedOk (moveGhost m g) ∧ ghostInBounds (moveGhost m g).
Proof.
  intros [Hs1 Hs2] [Hv1 Hv2].
  destruct (moveGhost_fields m g) as (Es & Ex & Evx & Ey & Evy).
  unfold ghostSizeOk, ghostSpeedOk, ghostInBounds. rewrite Es, Ex, Evx, Ey, Evy.
  rewrite !bounce_abs.
  destruct (bounce_spec (canvas_width - Ghost.size g) (Ghost.x g + Ghost.vx g * m)
              (Ghost.vx g)) as (? & ? & _); [unfold canvas_width; lra |].
  destruct (bounce_spec (canvas_height - Ghost.size g) (Ghost.y g + Ghost.vy g * m)
              (Ghost.vy g)) as (? & ? & _); [unfold canvas_height; lra |].
  done.
Qed.

Lemma followByte_velocity c b :
  Byte.vx (followByte c b) = Byte.vx b ∧ Byte.vy (followByte c b) = Byte.vy b.
Proof. unfold followByte. by destruct (_ >? _). Qed.

Lemma grabByte_velocity c d b :
  Byte.vx (grabByte c d b) = Byte.vx b ∧ Byte.vy (grabByte c d b) = Byte.vy b.
Proof. unfold grabByte. by destruct (_ && d). Qed.

Lemma depositByte_velocity b k :
  Byte.vx (depositByte b k).1 = Byte.vx b ∧ Byte.vy (depositByte b k).1 = Byte.vy b.
Proof. unfold depositByte, checkContainer. by destruct (inContainer b). Qed.

(** An update changes a byte's velocity only in the motion step. *)
Lemma byteAfter_velocity c d gs b :
  (Byte.vx (byteAfter c d gs b) = Byte.vx b ∧ Byte.vy (byteAfter c d gs b) = Byte.vy b)
  ∨ (Byte.vx (byteAfter c d gs b) = Byte.vx (moveByte b)
     ∧ Byte.vy (byteAfter c d gs b) = Byte.vy (moveByte b)).
Proof.
  destruct (Byte.caught b) eqn:Hc.
  - left. by destruct (updateByte_caught c d gs b Hc) as (-> & _).
  - destruct (Byte.grabbed b) eqn:Hg.
    + left. destruct (updateByte_held c d gs b Hc Hg) as [_ Heq].
      apply (f_equal fst) in Heq. cbn [fst] in Heq. rewrite Heq.
      destruct (depositByte_velocity (followByte c b) 0) as [-> ->].
      apply followByte_velocity.
    + right. destruct (updateByte_free c d gs b Hc Hg) as (_ & H1 & H2 & H3).
      set (m := grabByte c d (moveByte b)) in *.
      destruct (grabByte_velocity c d (moveByte b)) as [Evx Evy]. fold m in Evx, Evy.
      destruct (anyHit gs m) eqn:Hh.
      * destruct (H1 eq_refl) as [-> _]. done.
      * destruct (Byte.grabbed m) eqn:Hgm.
        -- specialize (H3 eq_refl eq_refl).
           apply (f_equal fst) in H3. cbn [fst] in H3. rewrite H3.
           destruct (depositByte_velocity (followByte c m) 0) as [-> ->].
           destruct (followByte_velocity c m) as [-> ->]. done.
        -- by destruct (H2 eq_refl eq_refl) as [-> _].
Qed.

Lemma moveByte_speed b : byteSpeedOk b → byteSpeedOk (moveByte b).
Proof.
  intros [H1 H2]. unfold byteSpeedOk.
  destruct (moveByte_fields b) as (_ & -> & _ & ->). by rewrite !bounce_abs.
Qed.

Lemma byteAfter_speed c d gs b : byteSpeedOk b → byteSpeedOk (byteAfter c d gs b).
Proof.
  intros H. pose proof (moveByte_speed b H) as Hm. unfold byteSpeedOk in *.
  destruct (byteAfter_velocity c d gs b) as [[-> ->]|[-> ->]]; done.
Qed.

Lemma isDraw_range r : isDraw r = true ↔ 0 <= r ∧ r < 1.
Proof. unfold isDraw. by rewrite andb_true_iff, Qle_bool_iff, Qltb_lt. Qed.

Lemma respawn_speed r b : validDraws r = true → byteSpeedOk (respawn r b).
Proof.
  unfold validDraws. rewrite !andb_true_iff, !isDraw_range.
  intros ((((_ & _) & Hvx) & Hvy) & _).
  unfold byteSpeedOk, respawn. cbn [Byte.vx Byte.vy].
  rewrite !Qabs_Qle_condition. lra.
Qed.

Lemma newByte_speed r : validByteSeed r = true → byteSpeedOk (newByte r).
Proof.
  unfold validByteSeed. rewrite !andb_true_iff, !isDraw_range.
  intros (((((_ & _) & Hvx) & Hvy) & _) & _).
  unfold byteSpeedOk, newByte. cbn [Byte.vx Byte.vy].
  rewrite !Qabs_Qle_condition. lra.
Qed.

Lemma newGhost_ok r :
  validGhostSeed r = true → ghostSizeOk (newGhost r) ∧ ghostSpeedOk (newGhost r).
Proof.
  unfold validGhostSeed. rewrite !andb_true_iff, !isDraw_range.
  intros (((((_ & _) & Hvx) & Hvy) & Hs) & _).
  unfold ghostSizeOk, ghostSpeedOk, newGhost. cbn [Ghost.vx Ghost.vy Ghost.size].
  rewrite !Qabs_Qle_condition. lra.
Qed.

Lemma spawn_speed r bs :
  validDraws r = true → Forall byteSpeedOk bs → Forall byteSpeedOk (spawnBytes r bs).
Proof.
  intros Hr H. unfold spawnBytes.
  destruct (list_find _ bs) as [[i b]|]; [| done].
  apply Forall_alter; [done |]. intros x _ _. by apply respawn_speed.
Qed.

Lemma Kept_start r rb rg :
  opened r →
  (∀ i, validByteSeed (rb i) = true) → (∀ i, validGhostSeed (rg i) = true) →
  Kept (startGame r rb rg).
Proof.
  intros [Hp Ht]%opened_spec Hb Hg.
  split; cbn [bytes ghosts controller caughtBytes eatenBytes gameResult timeLeft
              startGame Controller.size]; rewrite ?Hp, ?Ht; try done.
  - apply Forall_fmap, Forall_forall. intros i _. apply newGhost_ok, Hg.
  - apply Forall_fmap, Forall_forall. intros i _. apply newGhost_ok, Hg.
  - apply Forall_fmap, Forall_forall. intros i _. apply newByte_speed, Hb.
Qed.

Lemma Kept_gameLoop f s :
  validDraws (draws f) = true → Kept s → Kept (gameLoop f s).
Proof.
  intros Hv [Hgs Hgv Hbv Hc Ht Hwon Hlost Hto].
  destruct (decide (gameResult s = playing)) as [Hp|Hp];
    [| by rewrite gameLoop_over].
  destruct (gameLoop_fields f s Hp) as (Eb & Ee & Ek & Er & Eg & Ec & _ & Et).
  destruct (beforeBytes_frame f s) as (_ & _ & _ & _ & _ & _ & Eb1 & Eg1).
  pose proof (checkResult_cases (caughtBytes (gameLoop f s)) (eatenBytes (gameLoop f s)))
    as [Hsucc Hfail].
  assert (Hbv1 : Forall byteSpeedOk (bytes (beforeBytes f s))).
  { rewrite Eb1. unfold spawnPhase. destruct (spawnDue f s); [| done].
    by apply spawn_speed. }
  assert (Hgk : Forall (λ g, ghostSizeOk g ∧ ghostSpeedOk g) (ghosts (gameLoop f s))).
  { rewrite Eg, Eg1. apply Forall_fmap.
    apply Forall_forall. intros g Hin. unfold compose.
    pose proof (proj1 (Forall_forall _ _) Hgs g Hin).
    pose proof (proj1 (Forall_forall _ _) Hgv g Hin).
    destruct (moveGhost_kept (ghostSpeedMultiplier (caughtBytes s)) g) as (? & ? & _); done. }
  split.
  - eapply Forall_impl; [exact Hgk | by intros g [? _]].
  - eapply Forall_impl; [exact Hgk | by intros g [_ ?]].
  - rewrite Eb. apply Forall_fmap. eapply Forall_impl; [exact Hbv1 |].
    intros b Hb. by apply byteAfter_speed.
  - by rewrite Ec.
  - by rewrite Et.
  - rewrite Er. apply Hsucc.
  - rewrite Er. intros Hf. left. by apply Hfail.
  - rewrite Et. intros H0. specialize (Hto H0). congruence.
Qed.

Lemma Kept_countdown s : Kept s → Kept (countdown s).
Proof.
  intros [Hgs Hgv Hbv Hc Ht Hwon Hlost Hto].
  destruct (decide (gameInterval s = cleared)) as [Hi|Hi];
    [by rewrite countdown_cleared |].
  destruct (countdown_frame s) as (Eb & Eg & Ec & Ek & Ee & _).
  destruct (countdown_live s Hi) as [H1 H2].
  destruct (Z.le_gt_cases (timeLeft s) 1) as [Hle|Hgt].
  - destruct (H1 Hle) as (Er & Et & _).
    split; rewrite ?Eb, ?Eg, ?Ec, ?Ek, ?Ee, ?Er, ?Et; try done.
    intros _. by right.
  - destruct (H2 Hgt) as (Er & Et & _).
    split; rewrite ?Eb, ?Eg, ?Ec, ?Ek, ?Ee, ?Er, ?Et; try done; try lia.
    intros Hf. destruct (Hlost Hf) as [?|?]; [by left | lia].
Qed.

Lemma Kept_step s e : validEvent e = true → Kept s → Kept (step s e).
Proof.
  intros Hv H. destruct e as [f | | mx my | |]; cbn [step].
  - by apply Kept_gameLoop.
  - by apply Kept_countdown.
  - destruct (decide _); [| done]. by destruct H.
  - destruct (decide _); [| done]. by destruct H.
  - destruct (decide _); [| done]. by destruct H.
Qed.

Lemma reachable_Kept s L : reachable s L → Kept s.
Proof.
  induction 1 as [r rb rg Ho Hb Hg | s L e _ IH Hv].
  - by apply Kept_start.
  - by apply Kept_step.
Qed.

Lemma step_ghosts s e :
  Forall ghostSizeOk (ghosts s) →
  Forall ghostSizeOk (ghosts (step s e))
  ∧ (Forall ghostInBounds (ghosts s) → Forall ghostInBounds (ghosts (step s e)))
  ∧ length (ghosts (step s e)) = length (ghosts s).
Proof.
  intros Hs.
  assert (Hsame : ghosts (step s e) = ghosts s → 
    Forall ghostSizeOk (ghosts (step s e))
    ∧ (Forall ghostInBounds (ghosts s) → Forall ghostInBounds (ghosts (step s e)))
    ∧ length (ghosts (step s e)) = length (ghosts s)) by (by intros ->).
  destruct e as [f | | mx my | |]; cbn [step] in *.
  - destruct (decide (gameResult s = playing)) as [Hp|Hp];
      [| apply Hsame; by rewrite gameLoop_over].
    destruct (gameLoop_fields f s Hp) as (_ & _ & _ & _ & -> & _).
    destruct (beforeBytes_frame f s) as (_ & _ & _ & _ & _ & _ & _ & ->).
    rewrite length_fmap. split; [| split; [intros _ | done]].
    + apply Forall_fmap. eapply Forall_impl; [exact Hs |].
      intros g Hg. unfold compose, ghostSizeOk in *.
      by destruct (moveGhost_fields (ghostSpeedMultiplier (caughtBytes s)) g) as (-> & _).
    + apply Forall_fmap. eapply Forall_impl; [exact Hs |].
      intros g [Hg1 Hg2]. unfold compose, ghostInBounds.
      set (m := ghostSpeedMultiplier (caughtBytes s)).
      destruct (moveGhost_fields m g) as (-> & -> & _ & -> & _).
      destruct (bounce_spec (canvas_width - Ghost.size g) (Ghost.x g + Ghost.vx g * m)
                  (Ghost.vx g)) as (? & ? & _); [unfold canvas_width; lra |].
      destruct (bounce_spec (canvas_height - Ghost.size g) (Ghost.y g + Ghost.vy g * m)
                  (Ghost.vy g)) as (? & ? & _); [unfold canvas_height; lra |].
      done.
  - apply Hsame. by destruct (countdown_frame s) as (_ & -> & _).
  - apply Hsame. by destruct (decide _).
  - apply Hsame. by destruct (decide _).
  - apply Hsame. by destruct (decide _).
Qed.

Lemma run_ghosts s es :
  Forall ghostSizeOk (ghosts s) → Forall ghostInBounds (ghosts s) →
  Forall ghostSizeOk (ghosts (run s es))
  ∧ Forall ghostInBounds (ghosts (run s es))
  ∧ length (ghosts (run s es)) = length (ghosts s).
Proof.
  revert s. unfold run. induction es as [|e es IH]; intros s Hs Hb; cbn [fold_left]; [done |].
  destruct (step_ghosts s e Hs) as (Hs' & Hb' & Hl).
  destruct (IH (step s e) Hs' (Hb' Hb)) as (? & ? & ?).
  split; [done |]. split; [done |]. congruence.
Qed.

(** X1: Ghosts in the play area: a frame that runs leaves each of the three
    ghosts within [0, width - size] x [0, height - size], whatever it
    was drawn at, and every later event keeps them there. *)
Theorem ghosts_stay_in_play_area
    (s : State) (L : list (option Cause)) (f : Frame) (es : list Event) :
  reachable s L → gameResult s = playing →
  Forall ghostInBounds (ghosts (gameLoop f s))
  ∧ Forall ghostInBounds (ghosts (run (gameLoop f s) es))
  ∧ Forall ghostSizeOk (ghosts (run (gameLoop f s) es))
  ∧ length (ghosts (run (gameLoop f s) es)) = 3%nat.
Proof.
  intros Hr Hp.
  destruct (reachable_Inv s L Hr) as [_ Hg _ _ _ _ _].
  destruct (reachable_Kept s L Hr) as [Hgs Hgv _ _ _ _ _ _].
  assert (Hb : Forall ghostInBounds (ghosts (gameLoop f s))).
  { destruct (gameLoop_fields f s Hp) as (_ & _ & _ & _ & -> & _).
    destruct (beforeBytes_frame f s) as (_ & _ & _ & _ & _ & _ & _ & ->).
    apply Forall_fmap, Forall_forall. intros g Hin. unfold compose.
    pose proof (proj1 (Forall_forall _ _) Hgs g Hin).
    pose proof (proj1 (Forall_forall _ _) Hgv g Hin).
    by destruct (moveGhost_kept (ghostSpeedMultiplier (caughtBytes s)) g) as (_ & _ & ?). }
  destruct (step_ghosts s (AnimationFrame f) Hgs) as (Hs1 & _ & Hl1). cbn [step] in Hs1, Hl1.
  destruct (run_ghosts (gameLoop f s) es Hs1 Hb) as (H1 & H2 & H3).
  split; [exact Hb |]. split; [exact H2 |]. split; [exact H1 |].
  rewrite H3, Hl1, Hg. reflexivity.
Qed.

Lemma ghosts_stay_in_play_area_witness :
  Forall ghostInBounds (ghosts (gameLoop scenA_frame1 scenA_start)).
Proof.
  assert (Hp : gameResult scenA_start = playing) by reflexivity.
  destruct (ghosts_stay_in_play_area scenA_start noCause scenA_frame1 []
              scenA_reachable Hp) as (H & _).
  exact H.
Defined.

Lemma bounce_near (limit pos0 pos vel d : Q) :
  0 <= pos0 → pos0 <= limit → Qabs (pos - pos0) <= d →
  Qabs ((bounce limit pos vel).1 - pos0) <= d.
Proof.
  intros H0 H1 Hd. apply Qabs_Qle_condition in Hd as [Hd1 Hd2].
  apply Qabs_Qle_condition. unfold bounce.
  destruct ((pos <=? 0) || (pos >=? limit)); cbn [fst]; [| split; lra].
  assert (Hup : Qmax 0 (Qmin limit pos) <= pos0 + d).
  { apply Q.max_lub; [lra |].
    apply Qle_trans with pos; [apply Q.le_min_r | lra]. }
  assert (Hlo : pos0 - d <= Qmax 0 (Qmin limit pos)).
  { apply Qle_trans with (Qmin limit pos); [| apply Q.le_max_r].
    apply Q.min_glb; lra. }
  split; lra.
Qed.

Lemma multiplier_range k :
  0 <= ghostSpeedMultiplier k ∧ ghostSpeedMultiplier k <= 2.
Proof. unfold ghostSpeedMultiplier. destruct (_ >=? _)%Z; split; by vm_compute. Qed.

(** X2: Speed caps: throughout a session each velocity component of a byte
    stays within [-2, 2] and each velocity component of a ghost within
    [-0.75, 0.75].  In a frame the ghost at an index is moved by
    [moveGhost] with the multiplier of the frame; its speed keeps its
    magnitude on each axis, and when it starts inside the play area it
    moves by at most 1.5 per axis, even at the doubled speed.  (A ghost
    drawn partly outside is brought in by the first frame, however far
    it is.) *)
Theorem speeds_are_capped
    (s : State) (L : list (option Cause)) (f : Frame) (i : nat) (g : Ghost.t) :
  reachable s L → gameResult s = playing → ghosts s !! i = Some g →
  let g' := moveGhost (ghostSpeedMultiplier (caughtBytes s)) g in
  Forall byteSpeedOk (bytes s)
  ∧ Forall ghostSpeedOk (ghosts s)
  ∧ ghosts (gameLoop f s) !! i = Some g'
  ∧ Qabs (Ghost.vx g') == Qabs (Ghost.vx g)
  ∧ Qabs (Ghost.vy g') == Qabs (Ghost.vy g)
  ∧ (ghostInBounds g →
       Qabs (Ghost.x g' - Ghost.x g) <= 1.5 ∧ Qabs (Ghost.y g' - Ghost.y g) <= 1.5).
Proof.
  intros Hr Hp Hi g'.
  destruct (reachable_Kept s L Hr) as [_ Hgv Hbv _ _ _ _ _].
  split; [exact Hbv |]. split; [exact Hgv |].
  destruct (gameLoop_fields f s Hp) as (_ & _ & _ & _ & Eg & _).
  destruct (beforeBytes_frame f s) as (_ & _ & _ & _ & _ & _ & _ & Eg1).
  split; [by rewrite Eg, Eg1, list_lookup_fmap, Hi |].
  set (m := ghostSpeedMultiplier (caughtBytes s)) in *.
  destruct (moveGhost_fields m g) as (_ & Ex & Evx & Ey & Evy). fold g' in Ex, Evx, Ey, Evy.
  rewrite Evx, Evy, !bounce_abs.
  split; [reflexivity |]. split; [reflexivity |].
  intros (X0 & X1 & Y0 & Y1).
  pose proof (proj1 (Forall_forall _ _) Hgv g (list_elem_of_lookup_2 _ _ _ Hi)) as [V1 V2].
  destruct (multiplier_range (caughtBytes s)) as [M0 M2]. fold m in M0, M2.
  assert (Ha : Qabs m == m) by (by apply Qabs_pos).
  pose proof (Qabs_nonneg (Ghost.vx g)). pose proof (Qabs_nonneg (Ghost.vy g)).
  rewrite Ex, Ey. split; apply bounce_near; try done.
  - setoid_replace (Ghost.x g + Ghost.vx g * m - Ghost.x g) with (Ghost.vx g * m)
      using relation Qeq by ring.
    rewrite Qabs_Qmult, Ha. nra.
  - setoid_replace (Ghost.y g + Ghost.vy g * m - Ghost.y g) with (Ghost.vy g * m)
      using relation Qeq by ring.
    rewrite Qabs_Qmult, Ha. nra.
Qed.

Lemma speeds_are_capped_witness : Forall byteSpeedOk (bytes scenA_start).
Proof.
  assert (Hp : gameResult scenA_start = playing) by reflexivity.
  assert (Hi : ghosts scenA_start !! 0%nat = Some (newGhost (scenA_ghosts 0)))
    by reflexivity.
  destruct (speeds_are_capped scenA_start noCause scenA_frame1 0
              (newGhost (scenA_ghosts 0)) scenA_reachable Hp Hi) as (H & _).
  exact H.
Defined.

(** ** The score *)

(** The calls of [setBytesWrangled] of a frame, taken together. *)
Lemma gameLoop_score f s :
  gameResult s = playing →
  bytesWrangled (gameLoop f s) =
    if (caughtBytes (gameLoop f s) =? caughtBytes s)%Z
    then bytesWrangled s else caughtBytes (gameLoop f s).
Proof.
  intros Hp. rewrite (gameLoop_playing f s Hp).
  unfold resultPhase, bytePhase. rewrite forEachByte_split.
  cbn [bytesWrangled caughtBytes].
  assert (E : bytesWrangled (beforeBytes f s) = bytesWrangled s
              ∧ caughtBytes (beforeBytes f s) = caughtBytes s).
  { unfold beforeBytes, ghostPhase, spawnPhase. by destruct (spawnDue f s). }
  destruct E as [-> ->].
  set (k := sumZ _).
  destruct (Z.eqb_spec k 0), (Z.eqb_spec (caughtBytes s + k) (caughtBytes s));
    try done; lia.
Qed.

Lemma step_score s e :
  bytesWrangled (step s e) =
    if (caughtBytes (step s e) =? caughtBytes s)%Z
    then bytesWrangled s else caughtBytes (step s e).
Proof.
  assert (Hsame : ∀ s' : State,
    caughtBytes s' = caughtBytes s → bytesWrangled s' = bytesWrangled s →
    bytesWrangled s' =
      if (caughtBytes s' =? caughtBytes s)%Z then bytesWrangled s else caughtBytes s').
  { intros s' -> ->. by rewrite Z.eqb_refl. }
  destruct e as [f | | mx my | |]; cbn [step].
  - destruct (decide (gameResult s = playing)) as [Hp|Hp].
    + by apply gameLoop_score.
    + rewrite gameLoop_over by done. by apply Hsame.
  - destruct (countdown_frame s) as (_ & _ & _ & Ek & _ & _ & _ & Ew).
    by apply Hsame.
  - destruct (decide _); by apply Hsame.
  - destruct (decide _); by apply Hsame.
  - destruct (decide _); by apply Hsame.
Qed.

(** X3: The score on display: a frame that deposits sets [bytesWrangled],
    which the page shows as "n/20 Bytes", to the deposit counter, and no
    other event touches it; so from a state in which the two agree (the
    score is reset to 0 when a game is closed or restarted) they agree
    after every run of events. *)
Theorem score_mirrors_deposit_counter (s : State) (e : Event) (es : list Event) :
  (caughtBytes (step s e) ≠ caughtBytes s →
     bytesWrangled (step s e) = caughtBytes (step s e))
  ∧ (caughtBytes (step s e) = caughtBytes s →
       bytesWrangled (step s e) = bytesWrangled s)
  ∧ (bytesWrangled s = caughtBytes s →
       bytesWrangled (run s es) = caughtBytes (run s es)).
Proof.
  split; [| split].
  - intros Hne. rewrite step_score. by apply Z.eqb_neq in Hne as ->.
  - intros He. rewrite step_score. by apply Z.eqb_eq in He as ->.
  - revert s. unfold run. induction es as [|e' es IH]; intros s Hs; cbn [fold_left];
      [done |].
    apply IH. rewrite step_score.
    destruct (Z.eqb_spec (caughtBytes (step s e')) (caughtBytes s)); congruence.
Qed.

(** X4: The outcome is justified: a session is won only with at least 20
    deposits on the counter, and lost only with fewer than 20 deposits
    and at least 20 consumptions, or with no time left; and there is no
    time left only in a lost session.  The remaining time is always
    between 0 and 15. *)
Theorem outcome_is_justified (s : State) (L : list (option Cause)) :
  reachable s L →
  (gameResult s = success → (totalBytes <= caughtBytes s)%Z)
  ∧ (gameResult s = failed →
       (caughtBytes s < totalBytes ∧ totalBytes <= eatenBytes s)%Z ∨ timeLeft s = 0%Z)
  ∧ (timeLeft s = 0%Z → gameResult s = failed)
  ∧ (0 <= timeLeft s <= 15)%Z.
Proof.
  intros Hr. by destruct (reachable_Kept s L Hr).
Qed.

Lemma outcome_is_justified_witness : (0 <= timeLeft scenD_nineteen <= 15)%Z.
Proof.
  destruct (outcome_is_justified scenD_nineteen scenD_ledger scenD_reachable)
    as (_ & _ & _ & H).
  exact H.
Defined.

(** ** The countdown *)

Lemma run_over s es :
  gameResult s ≠ playing → gameInterval s = cleared → run s es = s.
Proof.
  intros Hn Hi. unfold run. induction es as [|e es IH]; cbn [fold_left]; [done |].
  by rewrite (step_over s e Hn Hi).
Qed.

Lemma intervals_run s n :
  gameResult s = playing → gameInterval s ≠ cleared → (1 <= timeLeft s)%Z →
  let s' := run s (replicate n Interval) in
  ((Z.of_nat n < timeLeft s)%Z →
     gameResult s' = playing ∧ timeLeft s' = (timeLeft s - Z.of_nat n)%Z)
  ∧ ((timeLeft s <= Z.of_nat n)%Z → gameResult s' = failed ∧ timeLeft s' = 0%Z)
  ∧ bytes s' = bytes s ∧ caughtBytes s' = caughtBytes s ∧ eatenBytes s' = eatenBytes s.
Proof.
  revert s. induction n as [|n IH]; intros s Hp Hi Ht; cbv zeta.
  - cbn [replicate run fold_left]. split; [intros _; split; [done | lia] |].
    split; [intros; lia | done].
  - change (run s (replicate (S n) Interval))
      with (run (countdown s) (replicate n Interval)).
    destruct (countdown_cases s Hp Hi Ht) as (T1 & T2 & T3).
    destruct (countdown_frame s) as (Eb & _ & _ & Ek & Ee & _).
    destruct (countdown_live s Hi) as [L1 L2].
    destruct (Z.eq_dec (timeLeft s) 1%Z) as [H1|H1].
    + assert (Hf : gameResult (countdown s) = failed) by (apply T2; lia).
      destruct (L1 ltac:(lia)) as (_ & _ & Hc).
      rewrite run_over by (congruence || done).
      split; [intros; lia |]. split; [intros _; split; [done | lia] | done].
    + assert (Hp' : gameResult (countdown s) = playing) by (apply T3; lia).
      assert (Hi' : gameInterval (countdown s) ≠ cleared).
      { destruct (L2 ltac:(lia)) as (_ & _ & ->). exact Hi. }
      destruct (IH (countdown s) Hp' Hi' ltac:(lia)) as (I1 & I2 & I3 & I4 & I5).
      cbv zeta in I1, I2, I3, I4, I5.
      split; [intros Hn; destruct (I1 ltac:(lia)) as [-> ->]; split; [done | lia] |].
      split; [intros Hn; apply I2; lia |].
      rewrite I3, I4, I5. done.
Qed.

Lemma step_timeLeft s e :
  (0 <= timeLeft s)%Z → (0 <= timeLeft (step s e) <= timeLeft s)%Z.
Proof.
  intros Ht. destruct e as [f | | mx my | |]; cbn [step].
  - destruct (decide (gameResult s = playing)) as [Hp|Hp].
    + destruct (gameLoop_fields f s Hp) as (_ & _ & _ & _ & _ & _ & _ & ->). lia.
    + rewrite gameLoop_over by done. lia.
  - destruct (decide (gameInterval s = cleared)) as [Hi|Hi];
      [rewrite countdown_cleared by done; lia |].
    destruct (countdown_live s Hi) as [L1 L2].
    destruct (Z.le_gt_cases (timeLeft s) 1) as [Hle|Hgt].
    + destruct (L1 Hle) as (_ & -> & _). lia.
    + destruct (L2 Hgt) as (_ & -> & _). lia.
  - destruct (decide _); cbn; lia.
  - destruct (decide _); cbn; lia.
  - destruct (decide _); cbn; lia.
Qed.

(** X5: The countdown: in a session in progress with [t] seconds left, [n]
    ticks of the interval with no other event between them leave
    [t - n] seconds and the game on when [n < t], and end the game as
    lost with 0 seconds left when [n >= t]; they change neither the
    bytes nor the two counters.  No event ever raises the remaining
    time or takes it below zero. *)
Theorem countdown_runs_out (s : State) (L : list (option Cause)) (n : nat) (e : Event) :
  reachable s L → gameResult s = playing →
  let s' := run s (replicate n Interval) in
  ((Z.of_nat n < timeLeft s)%Z →
     gameResult s' = playing ∧ timeLeft s' = (timeLeft s - Z.of_nat n)%Z)
  ∧ ((timeLeft s <= Z.of_nat n)%Z → gameResult s' = failed ∧ timeLeft s' = 0%Z)
  ∧ bytes s' = bytes s ∧ caughtBytes s' = caughtBytes s ∧ eatenBytes s' = eatenBytes s
  ∧ (0 <= timeLeft (step s e) <= timeLeft s)%Z.
Proof.
  intros Hr Hp s'.
  destruct (reachable_Inv s L Hr) as [_ _ _ _ _ _ Hplay].
  destruct (Hplay Hp) as (_ & _ & Ht & _).
  pose proof (reachable_interval s L Hr Hp) as Hi.
  destruct (intervals_run s n Hp Hi Ht) as (H1 & H2 & H3 & H4 & H5).
  do 5 (split; [done |]). apply step_timeLeft. lia.
Qed.

Lemma countdown_runs_out_witness :
  gameResult (run scenA_start (replicate 15 Interval)) = failed
  ∧ timeLeft (run scenA_start (replicate 15 Interval)) = 0%Z.
Proof.
  assert (Hp : gameResult scenA_start = playing) by reflexivity.
  destruct (countdown_runs_out scenA_start noCause 15 Interval scenA_reachable Hp)
    as (_ & H & _).
  apply H. vm_compute. discriminate.
Defined.

(** ** The respawn clock *)

Lemma spawnBytes_one r bs i j :
  spawnBytes r bs !! i ≠ bs !! i → spawnBytes r bs !! j ≠ bs !! j → i = j.
Proof.
  unfold spawnBytes. destruct (list_find _ bs) as [[k b]|]; [| done].
  intros Hi Hj.
  destruct (decide (k = i)) as [<-|Hki]; [| by rewrite list_lookup_alter_ne in Hi].
  destruct (decide (k = j)) as [<-|Hkj]; [done | by rewrite list_lookup_alter_ne in Hj].
Qed.

(** X6: The respawn branch: off its one-second beat it changes nothing; on
    the beat it restarts its clock at the current reading whether or not
    it finds a caught byte, it recycles at most one byte, and with no
    caught byte it leaves every byte as it is.  After a frame on the
    beat, a later frame is on the beat exactly when its clock reading is
    more than 1000 ms past that frame's. *)
Theorem respawn_keeps_its_beat :
  ∀ (f f' : Frame) (s : State),
    (spawnDue f s = false → spawnPhase f s = s)
    ∧ (spawnDue f s = true → lastByteSpawn (spawnPhase f s) = currentTime f)
    ∧ (∀ i j, bytes (spawnPhase f s) !! i ≠ bytes s !! i →
              bytes (spawnPhase f s) !! j ≠ bytes s !! j → i = j)
    ∧ (Forall (λ b, Byte.caught b = false) (bytes s) →
         bytes (spawnPhase f s) = bytes s)
    ∧ (gameResult s = playing → spawnDue f s = true →
         (spawnDue f' (gameLoop f s) = true ↔
            (1000 < currentTime f' - currentTime f)%Z)).
Proof.
  intros f f' s. split; [| split; [| split; [| split]]].
  - intros Hd. unfold spawnPhase. by rewrite Hd.
  - intros Hd. unfold spawnPhase. by rewrite Hd.
  - intros i j. unfold spawnPhase. destruct (spawnDue f s); [| done].
    cbn [bytes]. apply spawnBytes_one.
  - intros Hn. unfold spawnPhase. destruct (spawnDue f s); [| done].
    cbn [bytes]. unfold spawnBytes.
    assert (Hf : list_find (λ byte, Byte.caught byte = true) (bytes s) = None).
    { apply list_find_None. eapply Forall_impl; [exact Hn |].
      intros b Hb. cbn. congruence. }
    by rewrite Hf.
  - intros Hp Hd.
    assert (El : lastByteSpawn (gameLoop f s) = currentTime f).
    { rewrite (gameLoop_playing f s Hp).
      unfold resultPhase, bytePhase. rewrite forEachByte_split.
      cbn [lastByteSpawn]. unfold beforeBytes, ghostPhase, spawnPhase.
      by rewrite Hd. }
    unfold spawnDue at 1. rewrite El. apply Z.gtb_lt.
Qed.

(** ** Following the controller *)

Lemma depositByte_place b k :
  Byte.x (depositByte b k).1 = Byte.x b ∧ Byte.y (depositByte b k).1 = Byte.y b.
Proof. unfold depositByte, checkContainer. by destruct (inContainer b). Qed.

(** X7: The follow step.  In a frame a held byte ends where the follow
    step puts it.  With the distance to the controller, as [Math.sqrt]
    gives it, at most 5 the byte stays where it is.  Beyond 5 each
    coordinate moves by 3 times its share of that distance, straight
    towards the controller and without reaching or passing it: both
    differences to the controller are multiplied by [1 - 3 / distance],
    which lies between 0.4 and 1.  Flags, size and velocity are
    untouched.  (Sums, products and quotients are exact here.) *)
Theorem follow_moves_closer :
  ∀ (c : Controller.t) (b : Byte.t),
    let dx := Controller.x c - Byte.x b in
    let dy := Controller.y c - Byte.y b in
    let dist := Math_sqrt (dx * dx + dy * dy) in
    let b' := followByte c b in
    (dist <= 5 → b' = b)
    ∧ (5 < dist →
         Byte.x b' == Byte.x b + 3 * (dx / dist)
         ∧ Byte.y b' == Byte.y b + 3 * (dy / dist)
         ∧ Controller.x c - Byte.x b' == (1 - 3 / dist) * dx
         ∧ Controller.y c - Byte.y b' == (1 - 3 / dist) * dy
         ∧ 0.4 < 1 - 3 / dist ∧ 1 - 3 / dist < 1)
    ∧ Byte.caught b' = Byte.caught b ∧ Byte.grabbed b' = Byte.grabbed b
    ∧ Byte.size b' = Byte.size b
    ∧ Byte.vx b' = Byte.vx b ∧ Byte.vy b' = Byte.vy b
    ∧ (∀ s f i,
         gameResult s = playing → c = controller s →
         byteBefore i f s = Some b → isHeld b = true →
         ∃ b'', byteAtIndex i (gameLoop f s) = Some b''
                ∧ Byte.x b'' = Byte.x b' ∧ Byte.y b'' = Byte.y b').
Proof.
  intros c b dx dy dist b'.
  destruct (followByte_flags c b) as (Hc & Hg & Hs).
  destruct (followByte_velocity c b) as (Hvx & Hvy).
  split; [| split; [| do 5 (split; [done |])]].
  - intros Hd. unfold b', followByte. fold dx dy dist.
    apply Qltb_ge in Hd. by rewrite Hd.
  - intros Hd.
    assert (H0 : 0 < 3 / dist) by (apply Qlt_shift_div_l; lra).
    assert (H1 : 3 / dist < 0.6) by (apply Qlt_shift_div_r; lra).
    assert (Hne : ¬ dist == 0) by lra.
    unfold b', followByte. fold dx dy dist.
    pose proof Hd as Hd'. apply Qltb_lt in Hd'. rewrite Hd'.
    cbn [Byte.x Byte.y Byte.with_x Byte.with_y].
    split; [field; exact Hne |]. split; [field; exact Hne |].
    split; [unfold dx; field; exact Hne |].
    split; [unfold dy; field; exact Hne |].
    split; lra.
  - intros s f i Hp -> Hb Hh.
    rewrite (gameLoop_byte f s i b Hp Hb).
    destruct (held_byte_update (controller s) (isDraggingLocal s)
                (ghosts (beforeBytes f s)) b Hh) as (-> & _).
    eexists. split; [reflexivity |]. apply depositByte_place.
Qed.

(** ** Held bytes *)

Lemma spawn_keeps_uncaught f s i b :
  byteAtIndex i s = Some b → Byte.caught b = false → byteBefore i f s = Some b.
Proof.
  intros Hb Hc. unfold byteBefore, byteAtIndex in *.
  destruct (beforeBytes_frame f s) as (_ & _ & _ & _ & _ & _ & -> & _).
  unfold spawnPhase. destruct (spawnDue f s); [| done]. cbn [bytes].
  unfold spawnBytes. destruct (list_find _ (bytes s)) as [[k b0]|] eqn:Hf; [| done].
  apply list_find_Some in Hf as (Hk & Hck & _).
  rewrite list_lookup_alter_ne; [done |]. intros ->. congruence.
Qed.

Lemma gameLoop_secured f s i b :
  gameResult s = playing → byteBefore i f s = Some b →
  (caughtBytes s
   + securedBy (controller s) (isDraggingLocal s) (ghosts (beforeBytes f s)) b
   <= caughtBytes (gameLoop f s))%Z.
Proof.
  intros Hp Hb. destruct (gameLoop_fields f s Hp) as (_ & _ & -> & _).
  pose proof (sumZ_lookup_le
    (securedBy (controller s) (isDraggingLocal s) (ghosts (beforeBytes f s)))
    (bytes (beforeBytes f s)) i b (λ x, proj1 (securedBy_bounds _ _ _ x)) Hb).
  lia.
Qed.

(** X8: A held byte is never dropped: whatever the next event, releasing the
    button included, the byte is still held after it, or it has been
    deposited: caught, no longer grabbed, inside the container, with the
    deposit counter raised.  A mouse or countdown event leaves it as it
    is. *)
Theorem held_byte_is_never_dropped (s : State) (e : Event) (i : nat) (b : Byte.t) :
  byteAtIndex i s = Some b → isHeld b = true →
  (∃ b', byteAtIndex i (step s e) = Some b'
         ∧ Byte.size b' = Byte.size b
         ∧ (isHeld b' = true
            ∨ (isCaptured b' = true ∧ Byte.grabbed b' = false
               ∧ inContainer b' = true
               ∧ (caughtBytes s < caughtBytes (step s e))%Z)))
  ∧ ((∀ f, e ≠ AnimationFrame f) → byteAtIndex i (step s e) = Some b).
Proof.
  intros Hb Hh.
  assert (Hsame : byteAtIndex i (step s e) = Some b →
    ∃ b', byteAtIndex i (step s e) = Some b' ∧ Byte.size b' = Byte.size b
      ∧ (isHeld b' = true
         ∨ (isCaptured b' = true ∧ Byte.grabbed b' = false ∧ inContainer b' = true
            ∧ (caughtBytes s < caughtBytes (step s e))%Z))).
  { intros H. exists b. split; [exact H |]. split; [done | by left]. }
  split.
  - destruct e as [f | | mx my | |].
    + destruct (decide (gameResult s = playing)) as [Hp|Hp].
      * clear Hsame.
        pose proof Hh as Hh'. apply isHeld_flags in Hh' as [Hc Hg].
        pose proof (spawn_keeps_uncaught f s i b Hb Hc) as Hbb.
        cbn [step]. rewrite (gameLoop_byte f s i b Hp Hbb).
        pose proof (gameLoop_secured f s i b Hp Hbb) as Hsec.
        destruct (held_byte_update (controller s) (isDraggingLocal s)
                    (ghosts (beforeBytes f s)) b Hh) as (Ha & _ & Hs).
        rewrite Hs in Hsec. rewrite Ha.
        destruct (followByte_flags (controller s) b) as (Hc' & Hg' & Hs').
        eexists. split; [reflexivity |].
        unfold depositByte, checkContainer in *.
        destruct (inContainer (followByte (controller s) b)) eqn:Hin; cbn [fst snd] in *.
        -- split; [exact Hs' |]. right. split; [done |]. split; [done |].
           split; [exact Hin | lia].
        -- split; [exact Hs' |]. left. apply isHeld_flags. by rewrite Hc', Hg'.
      * apply Hsame. cbn [step]. by rewrite gameLoop_over.
    + apply Hsame. cbn [step]. unfold byteAtIndex.
      by destruct (countdown_frame s) as (-> & _).
    + apply Hsame. cbn [step]. by destruct (decide _).
    + apply Hsame. cbn [step]. by destruct (decide _).
    + apply Hsame. cbn [step]. by destruct (decide _).
  - intros He. destruct (other_event_bytes s e [] He) as [Eb _].
    unfold byteAtIndex. by rewrite Eb.
Qed.

Lemma held_byte_is_never_dropped_witness :
  byteAtIndex 0 (step scenB_held MouseUp) = byteAtIndex 0 scenB_held.
Proof.
  assert (Hb : byteAtIndex 0 scenB_held = Some scenB_byte) by (vm_compute; reflexivity).
  assert (Hh : isHeld scenB_byte = true) by (vm_compute; reflexivity).
  destruct (held_byte_is_never_dropped scenB_held MouseUp 0 scenB_byte Hb Hh) as [_ H].
  rewrite Hb. apply H. intros f Hf. discriminate Hf.
Defined.

(** ** The reach of the controller *)

(** X9: Grabbing needs the button and the range: in a frame of a session a
    free byte is not grabbed while the button is up, nor when its
    distance to the controller, after its motion step, is 32 or more;
    with the button down it is grabbed when that distance is below
    28.  (The controller's size is always 20, a byte's between 8 and
    12.) *)
Theorem grab_needs_button_and_range
    (s : State) (L : list (option Cause)) (f : Frame) (i : nat) (b : Byte.t) :
  reachable s L → gameResult s = playing →
  byteBefore i f s = Some b → isFree b = true →
  let c := controller s in
  let m := moveByte b in
  let dist := distance (Byte.x m) (Byte.y m) (Controller.x c) (Controller.y c) in
  Controller.size c = 20
  ∧ (isDraggingLocal s = false → Byte.grabbed (grabByte c (isDraggingLocal s) m) = false)
  ∧ (32 <= dist → Byte.grabbed (grabByte c (isDraggingLocal s) m) = false)
  ∧ (isDraggingLocal s = true → dist < 28 →
       Byte.grabbed (grabByte c (isDraggingLocal s) m) = true).
Proof.
  intros Hr Hp Hb Hfree c m dist.
  pose proof (reachable_Inv s L Hr) as HI.
  destruct (reachable_Kept s L Hr) as [_ _ _ Hc _ _ _ _].
  destruct (beforeBytes_sizeOk f s L i b HI Hb) as [Hs1 Hs2].
  destruct (moveByte_flags b) as (_ & Hmg & Hms). fold m in Hmg, Hms.
  apply isFree_flags in Hfree as [_ Hg].
  fold c in Hc. split; [exact Hc |].
  unfold grabByte. fold dist. rewrite Hc, Hms.
  split; [| split].
  - intros ->. rewrite andb_false_r. by rewrite Hmg.
  - intros Hd. assert (Ht : (dist <? 20 + Byte.size b) = false) by (apply Qltb_ge; lra).
    rewrite Ht. cbn [andb]. by rewrite Hmg.
  - intros -> Hd. assert (Ht : (dist <? 20 + Byte.size b) = true) by (apply Qltb_lt; lra).
    by rewrite Ht.
Qed.

Lemma grab_needs_button_and_range_witness :
  Controller.size (controller scenA_start) = 20.
Proof.
  assert (Hp : gameResult scenA_start = playing) by reflexivity.
  assert (Hb : byteBefore 1 scenA_frame1 scenA_start = Some (newByte (scenA_bytes 1)))
    by (vm_compute; reflexivity).
  assert (Hf : isFree (newByte (scenA_bytes 1)) = true) by reflexivity.
  destruct (grab_needs_button_and_range scenA_start noCause scenA_frame1 1
              (newByte (scenA_bytes 1)) scenA_reachable Hp Hb Hf) as (H & _).
  exact H.
Defined.

(** ** Caught bytes and the two counters *)

Lemma caught_after c d gs b :
  (Z.b2z (Byte.caught (byteAfter c d gs b))
   <= Z.b2z (Byte.caught b) + eatenBy c d gs b + securedBy c d gs b)%Z.
Proof.
  destruct (Byte.caught b) eqn:Hc.
  - destruct (updateByte_caught c d gs b Hc) as (-> & -> & ->). rewrite Hc. done.
  - destruct (updateByte_outcome c d gs b Hc) as [H1 H2 H3 _|H1 _ H2 H3|H1 _ H2 H3|H1 _ H2 H3].
    + rewrite H1, H3. cbn [Z.b2z]. lia.
    + rewrite H1, H2, H3. done.
    + rewrite H1, H2, H3. done.
    + rewrite H1, H2, H3. destruct (moveByte_flags b) as (-> & _). rewrite Hc. done.
Qed.

Lemma caughtCount_update c d gs bs :
  (caughtCount (byteAfter c d gs <$> bs)
   <= caughtCount bs + sumZ (eatenBy c d gs <$> bs) + sumZ (securedBy c d gs <$> bs))%Z.
Proof.
  unfold caughtCount. induction bs as [|b bs IH]; [done |].
  rewrite !fmap_cons. cbn [sumZ]. pose proof (caught_after c d gs b). lia.
Qed.

Lemma caughtCount_alter (g : Byte.t → Byte.t) i bs :
  (∀ b, Byte.caught (g b) = false) → (caughtCount (alter g i bs) <= caughtCount bs)%Z.
Proof.
  intros Hg. unfold caughtCount. revert i.
  induction bs as [|b bs IH]; intros [|i]; try done.
  - cbn [alter list_alter]. rewrite !fmap_cons. cbn [sumZ]. rewrite Hg.
    destruct (Byte.caught b); cbn; lia.
  - cbn [alter list_alter]. rewrite !fmap_cons. cbn [sumZ].
    apply Z.add_le_mono_l, IH.
Qed.

Lemma caughtCount_spawn r bs : (caughtCount (spawnBytes r bs) <= caughtCount bs)%Z.
Proof.
  unfold spawnBytes. destruct (list_find _ bs) as [[i b]|]; [| done].
  by apply caughtCount_alter.
Qed.

Lemma caughtCount_step s e :
  (caughtCount (bytes (step s e)) - caughtBytes (step s e) - eatenBytes (step s e)
   <= caughtCount (bytes s) - caughtBytes s - eatenBytes s)%Z.
Proof.
  assert (Hother : (∀ f, e ≠ AnimationFrame f) →
    (caughtCount (bytes (step s e)) - caughtBytes (step s e) - eatenBytes (step s e)
     <= caughtCount (bytes s) - caughtBytes s - eatenBytes s)%Z).
  { intros He. destruct (other_event_bytes s e [] He) as [-> _].
    assert (caughtBytes (step s e) = caughtBytes s ∧ eatenBytes (step s e) = eatenBytes s)
      as [-> ->]; [| lia].
    destruct e as [f | | mx my | |]; cbn [step].
    - by destruct (He f).
    - by destruct (countdown_frame s) as (_ & _ & _ & -> & -> & _).
    - by destruct (decide _).
    - by destruct (decide _).
    - by destruct (decide _). }
  destruct e as [f | | mx my | |]; try (apply Hother; intros f; discriminate).
  clear Hother. cbn [step]. destruct (decide (gameResult s = playing)) as [Hp|Hp];
    [| rewrite gameLoop_over by done; lia].
  destruct (gameLoop_fields f s Hp) as (-> & -> & -> & _).
  destruct (beforeBytes_frame f s) as (_ & _ & _ & _ & _ & _ & Eb & _).
  pose proof (caughtCount_update (controller s) (isDraggingLocal s)
                (ghosts (beforeBytes f s)) (bytes (beforeBytes f s))) as Hu.
  assert (Hs : (caughtCount (bytes (beforeBytes f s)) <= caughtCount (bytes s))%Z).
  { rewrite Eb. unfold spawnPhase. destruct (spawnDue f s); [| lia].
    cbn [bytes]. apply caughtCount_spawn. }
  lia.
Qed.

Lemma caughtCount_start r rb rg : caughtCount (bytes (startGame r rb rg)) = 0%Z.
Proof.
  cbn [bytes startGame]. unfold caughtCount.
  induction (seq 0 (Z.to_nat totalBytes)) as [|i l IH]; [done |].
  rewrite !fmap_cons. cbn [sumZ]. rewrite IH. done.
Qed.

(** X10: Every caught flag is paid for: in any state of a session the number
    of bytes carrying the [caught] flag is at most the deposits and
    consumptions counted so far.  (Recycling a byte clears its flag and
    leaves the counters, so the sum of the counters can be larger.) *)
Theorem caught_bytes_are_accounted_for (s : State) (L : list (option Cause)) :
  reachable s L →
  (0 <= caughtCount (bytes s) <= caughtBytes s + eatenBytes s)%Z.
Proof.
  intros Hr. split.
  - unfold caughtCount. apply sumZ_nonneg. intros b. by destruct (Byte.caught b).
  - induction Hr as [r rb rg Ho Hb Hg|s L e Hr IH Hv].
    + rewrite caughtCount_start. cbn. lia.
    + pose proof (caughtCount_step s e). lia.
Qed.

Lemma caught_bytes_are_accounted_for_witness :
  (0 <= caughtCount (bytes scenA_second) <= caughtBytes scenA_second + eatenBytes scenA_second)%Z.
Proof. exact (caught_bytes_are_accounted_for scenA_second scenA_ledger scenA_second_reachable). Defined.

(** ** Pointer events *)

Lemma run_snoc s es e : run s (es ++ [e]) = step (run s es) e.
Proof. unfold run. by rewrite fold_left_app. Qed.

(** X11: Between frames the pointer handlers only record: over any run of
    mouse moves and button changes of a game in play, the controller sits
    at the last move (where it was, if there was none), with its size
    unchanged, the drag flag is that of the last button change (as it was,
    if there was none), and bytes, ghosts, counters, respawn clock,
    result, time and score are as before. *)
Theorem pointer_events_only_record (s : State) (es : list Event) :
  gameResult s = playing →
  Forall (λ e, isPointer e = true) es →
  let s' := run s es in
  match last (filter (λ e, isMouseMove e = true) es) with
  | Some (MouseMove mx my) =>
      Controller.x (controller s') = mx ∧ Controller.y (controller s') = my
  | _ => controller s' = controller s
  end
  ∧ Controller.size (controller s') = Controller.size (controller s)
  ∧ isDraggingLocal s' =
      match last (filter (λ e, isButton e = true) es) with
      | Some MouseDown => true
      | Some MouseUp => false
      | _ => isDraggingLocal s
      end
  ∧ bytes s' = bytes s ∧ ghosts s' = ghosts s
  ∧ caughtBytes s' = caughtBytes s ∧ eatenBytes s' = eatenBytes s
  ∧ lastByteSpawn s' = lastByteSpawn s ∧ gameResult s' = gameResult s
  ∧ timeLeft s' = timeLeft s ∧ bytesWrangled s' = bytesWrangled s.
Proof.
  intros Hp Hes. cbn zeta. induction es as [|e es IH] using rev_ind.
  - cbn. done.
  - apply Forall_app in Hes as [Hes He]. apply Forall_inv in He.
    specialize (IH Hes).
    destruct IH as (Hc & Hsz & Hd & Hb & Hg & Hk & Hea & Hl & Hr & Ht & Hw).
    rewrite run_snoc. rewrite !filter_app.
    assert (Hp' : gameResult (run s es) = playing) by congruence.
    destruct e as [f | | mx my | |]; try (by vm_compute in He); cbn [step];
      (destruct (decide (gameResult (run s es) = playing)) as [_|Hn]; [| done]).
    + change (filter (λ e, isMouseMove e = true) [MouseMove mx my]) with [MouseMove mx my].
      change (filter (λ e, isButton e = true) [MouseMove mx my]) with (@nil Event).
      rewrite app_nil_r, last_snoc.
      cbn [handleMouseMove controller isDraggingLocal bytes ghosts caughtBytes eatenBytes
           lastByteSpawn gameResult timeLeft bytesWrangled Controller.x Controller.y
           Controller.size].
      done.
    + change (filter (λ e, isMouseMove e = true) [MouseDown]) with (@nil Event).
      change (filter (λ e, isButton e = true) [MouseDown]) with [MouseDown].
      rewrite app_nil_r, last_snoc. done.
    + change (filter (λ e, isMouseMove e = true) [MouseUp]) with (@nil Event).
      change (filter (λ e, isButton e = true) [MouseUp]) with [MouseUp].
      rewrite app_nil_r, last_snoc. done.
Qed.

Lemma pointer_events_only_record_witness :
  isDraggingLocal (run scenA_start [MouseDown; MouseMove 10 20; MouseUp; MouseMove 30 40]) = false.
Proof.
  assert (Hp : gameResult scenA_start = playing) by reflexivity.
  assert (He : Forall (λ e, isPointer e = true)
                 [MouseDown; MouseMove 10 20; MouseUp; MouseMove 30 40])
    by (repeat constructor).
  destruct (pointer_events_only_record scenA_start _ Hp He) as (_ & _ & H & _).
  exact H.
Defined.

(** ** Slots of the byte array *)

Lemma spawn_slot r bs i b :
  bs !! i = Some b →
  ∃ b1, spawnBytes r bs !! i = Some b1 ∧ Byte.size b1 = Byte.size b.
Proof.
  intros Hi. unfold spawnBytes. destruct (list_find _ bs) as [[k b0]|]; [| by exists b].
  destruct (decide (k = i)) as [->|Hk].
  - rewrite list_lookup_alter_eq, Hi. by eexists.
  - rewrite list_lookup_alter_ne by done. by exists b.
Qed.

Lemma step_slot s e i b :
  byteAtIndex i s = Some b →
  ∃ b', byteAtIndex i (step s e) = Some b' ∧ Byte.size b' = Byte.size b.
Proof.
  intros Hi.
  assert (Hsame : bytes (step s e) = bytes s →
    ∃ b', byteAtIndex i (step s e) = Some b' ∧ Byte.size b' = Byte.size b).
  { intros E. exists b. unfold byteAtIndex in *. by rewrite E. }
  destruct e as [f | | mx my | |];
    try (apply Hsame; apply other_event_bytes with (L := []); intros f; discriminate).
  clear Hsame. cbn [step].
  destruct (decide (gameResult s = playing)) as [Hp|Hp];
    [| rewrite gameLoop_over by done; by exists b].
  assert (Hb : ∃ b1, byteBefore i f s = Some b1 ∧ Byte.size b1 = Byte.size b).
  { unfold byteBefore, byteAtIndex in *.
    destruct (beforeBytes_frame f s) as (_ & _ & _ & _ & _ & _ & -> & _).
    unfold spawnPhase. destruct (spawnDue f s); [| by exists b].
    cbn [bytes]. by apply spawn_slot. }
  destruct Hb as (b1 & Hb1 & Hs1).
  rewrite (gameLoop_byte f s i b1 Hp Hb1). eexists. split; [reflexivity |].
  by rewrite byteAfter_size.
Qed.

Lemma step_length s e : length (bytes (step s e)) = length (bytes s).
Proof.
  apply Nat.le_antisymm.
  - destruct (bytes (step s e) !! length (bytes s)) as [b'|] eqn:Hl.
    + apply Nat.nlt_ge. intros Hlt. 
      assert (Hnone : byteAtIndex (length (bytes s)) s = None)
        by (apply lookup_ge_None_2; lia).
      destruct e as [f | | mx my | |]; cbn [step] in Hl.
      * destruct (decide (gameResult s = playing)) as [Hp|Hp].
        -- destruct (gameLoop_fields f s Hp) as (Eb & _). rewrite Eb in Hl.
           rewrite list_lookup_fmap in Hl.
           destruct (beforeBytes_frame f s) as (_ & _ & _ & _ & _ & _ & Eb1 & _).
           rewrite Eb1 in Hl. unfold spawnPhase in Hl.
           destruct (spawnDue f s); cbn [bytes] in Hl.
           ++ unfold spawnBytes in Hl. destruct (list_find _ (bytes s)) as [[k b0]|].
              ** apply fmap_Some in Hl as (x & Hx & _).
                 apply lookup_lt_Some in Hx. rewrite length_alter in Hx. lia.
              ** apply fmap_Some in Hl as (x & Hx & _).
                 apply lookup_lt_Some in Hx. lia.
           ++ apply fmap_Some in Hl as (x & Hx & _). apply lookup_lt_Some in Hx. lia.
        -- rewrite gameLoop_over in Hl by done. apply lookup_lt_Some in Hl. lia.
      * destruct (countdown_frame s) as (E & _). rewrite E in Hl.
        apply lookup_lt_Some in Hl. lia.
      * destruct (decide _); apply lookup_lt_Some in Hl; cbn in Hl; lia.
      * destruct (decide _); apply lookup_lt_Some in Hl; cbn in Hl; lia.
      * destruct (decide _); apply lookup_lt_Some in Hl; cbn in Hl; lia.
    + by apply lookup_ge_None_1 in Hl.
  - apply Nat.nlt_ge. intros Hlt.
    destruct (lookup_lt_is_Some_2 (bytes s) (length (bytes (step s e)))) as [b Hb]; [lia |].
    destruct (step_slot s e _ b Hb) as (b' & Hb' & _).
    apply lookup_lt_Some in Hb'. lia.
Qed.

(** X12: The byte array is a fixed set of slots: no run of events adds or
    removes a byte, and the byte in a slot keeps its size through
    motion, grabbing, deposit, consumption and recycling. *)
Theorem slot_keeps_its_size (s : State) (es : list Event) (i : nat) (b : Byte.t) :
  byteAtIndex i s = Some b →
  length (bytes (run s es)) = length (bytes s)
  ∧ ∃ b', byteAtIndex i (run s es) = Some b' ∧ Byte.size b' = Byte.size b.
Proof.
  revert s b. unfold run. induction es as [|e es IH]; intros s b Hi; cbn [fold_left].
  - split; [done |]. by exists b.
  - destruct (step_slot s e i b Hi) as (b1 & Hb1 & Hs1).
    destruct (IH (step s e) b1 Hb1) as (Hl & b' & Hb' & Hs').
    split; [by rewrite Hl, step_length |].
    exists b'. split; [exact Hb' | congruence].
Qed.

Lemma slot_keeps_its_size_witness :
  length (bytes (run scenA_start [AnimationFrame scenA_frame1; MouseDown])) =
    length (bytes scenA_start).
Proof.
  assert (Hb : byteAtIndex 1 scenA_start = Some (newByte (scenA_bytes 1)))
    by (vm_compute; reflexivity).
  destruct (slot_keeps_its_size scenA_start [AnimationFrame scenA_frame1; MouseDown] 1
              (newByte (scenA_bytes 1)) Hb) as (H & _).
  exact H.
Defined.
